(** * mergesvvcf/mergedfile.py: the merge driver and its helpers

    A shallow embedding of [mapped_to_chromosome], [int_if_possible],
    [make_info_dict], [bkptRefAltFromPair] and [merge], with the
    properties of the consensus records they produce.

    Conventions of the embedding:
    - Python exceptions are values of [exn]; a computation that can raise
      returns a [result].  Code that mutates an object before it raises
      returns the object together with the pending exception.
    - Python values reaching the INFO helpers are [pyval]: int, str, None,
      list and tuple.  Floats and bools are left out of the value model.
    - Strings are byte strings; [int()] is modelled on ASCII text.
    - A dict is a [gmap], [set(callers)] is a [gset].
    - The clustering object [variantdict.variantmap] and the pysam reader
      are collaborators whose code is not part of this module: they are
      section variables of [Section Merge]. *)

From Stdlib Require Import ZArith String Ascii List Sorted Lia.
From stdpp Require Import base option list sorting gmap strings pretty.

Local Open Scope Z_scope.
Local Open Scope string_scope.

(** ** Exceptions and the error monad *)

Inductive exn : Type :=
| ValueError
| TypeError
| IndexError
| KeyError
| AssertionError
| RuntimeError
| NameError
| AttributeError
| OSError.

Global Instance exn_eq_dec : EqDecision exn.
Proof. solve_decision. Defined.

Inductive result (A : Type) : Type :=
| Ok (a : A)
| Raise (e : exn).

Arguments Ok {A} a.
Arguments Raise {A} e.

Global Instance result_ret : MRet result := fun A a => Ok a.

Global Instance result_bind : MBind result := fun A B f m =>
  match m with
  | Ok a => f a
  | Raise e => Raise e
  end.

(** ** Python values *)

#[warnings="-register-all"]
Inductive pyval : Type :=
| VInt (z : Z)
| VStr (s : string)
| VNone
| VList (l : list pyval)
| VTuple (l : list pyval).

(** [type(v) is int or type(v) is str] *)
Definition is_scalar (v : pyval) : bool :=
  match v with
  | VInt _ | VStr _ => true
  | _ => false
  end.

(** *** The builtin [int()] on text

    Python accepts, in base 10: optional surrounding whitespace, an
    optional sign, then decimal digits in which single underscores may
    separate digits.  Anything else is a [ValueError]. *)

Definition py_isspace (c : ascii) : bool :=
  let n := nat_of_ascii c in
  ((9 <=? n)%nat && (n <=? 13)%nat) || ((28 <=? n)%nat && (n <=? 32)%nat).

Definition py_isdigit (c : ascii) : bool :=
  let n := nat_of_ascii c in (48 <=? n)%nat && (n <=? 57)%nat.

Definition digit_value (c : ascii) : Z := Z.of_nat (nat_of_ascii c) - 48.

Fixpoint only_spaces (s : string) : bool :=
  match s with
  | EmptyString => true
  | String c s' => py_isspace c && only_spaces s'
  end.

(** [digits acc after_digit s]: the value of the digit run [s] continued
    from [acc]; [after_digit] tells whether the previous character was a
    digit (an underscore is legal only there, and the run cannot end on
    one).  Trailing whitespace ends the run. *)
Fixpoint digits (acc : Z) (after_digit : bool) (s : string) : option Z :=
  match s with
  | EmptyString => if after_digit then Some acc else None
  | String c s' =>
      if py_isdigit c then digits (10 * acc + digit_value c) true s'
      else if Ascii.eqb c "_" then
        if after_digit then digits acc false s' else None
      else if py_isspace c then
        if after_digit && only_spaces s' then Some acc else None
      else None
  end.

Fixpoint lstrip (s : string) : string :=
  match s with
  | String c s' => if py_isspace c then lstrip s' else s
  | EmptyString => s
  end.

Definition int_of_str (s : string) : option Z :=
  match lstrip s with
  | String "-" s' => Z.opp <$> digits 0 false s'
  | String "+" s' => digits 0 false s'
  | s' => digits 0 false s'
  end.

(** [int(v)] *)
Definition py_int (v : pyval) : result Z :=
  match v with
  | VInt z => Ok z
  | VStr s =>
      match int_of_str s with
      | Some z => Ok z
      | None => Raise ValueError
      end
  | VNone | VList _ | VTuple _ => Raise TypeError
  end.

(** ** [int_if_possible] *)

(** [if type(val) is list: val = val[0]] *)
Definition unwrap_list (val : pyval) : result pyval :=
  match val with
  | VList l =>
      match l with
      | x :: _ => Ok x
      | [] => Raise IndexError
      end
  | _ => Ok val
  end.

Definition int_if_possible (val : pyval) : result pyval :=
  val ← unwrap_list val;
  match py_int val with
  | Ok i => Ok (VInt i)
  | Raise ValueError => Ok val
  | Raise e => Raise e
  end.

(** ** [sorted()]

    Python's sort only uses [<].  On the values that reach it here the
    comparison is defined between two ints and between two strs (by code
    point, which on byte strings is [String.ltb]); any other pair raises
    [TypeError].  Containers never reach the sort (see
    [answers_of_scalar]). *)

Definition py_lt (a b : pyval) : result bool :=
  match a, b with
  | VInt x, VInt y => Ok (x <? y)%Z
  | VStr x, VStr y => Ok (String.ltb x y)
  | _, _ => Raise TypeError
  end.

(** Stable insertion: [x] goes before the first element that is not
    smaller than it. *)
Fixpoint insert_sorted (x : pyval) (l : list pyval) : result (list pyval) :=
  match l with
  | [] => Ok [x]
  | y :: l' =>
      b ← py_lt y x;
      if (b : bool) then r ← insert_sorted x l'; Ok (y :: r)
      else Ok (x :: y :: l')
  end.

Fixpoint sorted_from (acc : list pyval) (l : list pyval) : result (list pyval) :=
  match l with
  | [] => Ok acc
  | x :: l' => acc' ← insert_sorted x acc; sorted_from acc' l'
  end.

Definition py_sorted (l : list pyval) : result (list pyval) := sorted_from [] l.

(** ** Records read from a caller's VCF (pysam.VariantRecord) *)

Record record : Type := mkRecord {
  rec_chrom : string;
  rec_pos : Z;
  rec_ref : string;
  rec_alts : list string;
  rec_filter : list string;
  rec_info : gmap string pyval
}.

(** ** [make_info_dict] *)

Definition fields : list string := ["CHR2"; "END"; "SVTYPE"; "SVLEN"].

(** The inner loop: [answers] for one field, in record order. *)
Fixpoint answers_of (field : string) (records : list record) (answers : list pyval)
  : result (list pyval) :=
  match records with
  | [] => Ok answers
  | r :: records' =>
      match rec_info r !! field with
      | Some v => a ← int_if_possible v; answers_of field records' (answers ++ [a])
      | None => answers_of field records' answers
      end
  end.

(** [median_answer == 0] *)
Definition py_eq_zero (v : pyval) : bool :=
  match v with
  | VInt z => (z =? 0)%Z
  | _ => false
  end.

(** [sorted_answers[int(nanswers / 2)]] when there is an answer. *)
Definition median_answer (field : string) (records : list record) : result (option pyval) :=
  answers ← answers_of field records [];
  let nanswers := length answers in
  if (0 <? nanswers)%nat then
    sorted_answers ← py_sorted answers;
    let median_pos := (nanswers / 2)%nat in
    match sorted_answers !! median_pos with
    | Some m => Ok (Some m)
    | None => Raise IndexError
    end
  else Ok None.

(** The body of [for field in fields] *)
Definition info_step (records : list record) (info : gmap string pyval) (field : string)
  : result (gmap string pyval) :=
  m ← median_answer field records;
  match m with
  | Some median => if py_eq_zero median then Ok info else Ok (<[field := median]> info)
  | None => Ok info
  end.

Fixpoint info_loop (fs : list string) (records : list record) (info : gmap string pyval)
  : result (gmap string pyval) :=
  match fs with
  | [] => Ok info
  | field :: fs' => info' ← info_step records info field; info_loop fs' records info'
  end.

(** [info['SVTYPE'] in ['DUP', 'DUP:TANDEM', 'DEL', 'INV']] *)
Definition sized_svtype (v : pyval) : bool :=
  match v with
  | VStr s => bool_decide (s ∈ ["DUP"; "DUP:TANDEM"; "DEL"; "INV"])
  | _ => false
  end.

(** The last [if] of the function: a length for the sized event types. *)
Definition synth_svlen (info : gmap string pyval) (pos1 pos2 : Z) : gmap string pyval :=
  match info !! "SVTYPE" with
  | Some t =>
      if sized_svtype t then
        match info !! "SVLEN" with
        | None => <["SVLEN" := VInt (pos2 - pos1)]> info
        | Some _ => info
        end
      else info
  | None => info
  end.

Definition make_info_dict (records : list record) (pos1 pos2 : Z)
  : result (gmap string pyval) :=
  info ← info_loop fields records ∅;
  Ok (synth_svlen info pos1 pos2).

Definition rec_with (info : list (string * pyval)) : record :=
  mkRecord "1" 1000 "N" ["<DEL>"] [] (list_to_map info).

(** ** [mapped_to_chromosome] *)

(** [chrom[0:k]] *)
Definition py_prefix (k : nat) (chrom : string) : string := substring 0 k chrom.

Definition mapped_to_chromosome (chrom : string) : bool :=
  if bool_decide (py_prefix 2 chrom ∈ ["GL"; "MT"; "hs"; "NC"])
     || bool_decide (py_prefix 1 chrom = "M")
  then false
  else true.

(** ** Locations

    Modelled from the spec: the Location class of the clustering module
    is not part of this file's source.  A Location has a chromosome
    (possibly unknown), a position, a strand flag and the flag telling
    whether it is the right end of its pair; [withPos] is the copy with
    the position replaced and [asTuple] lists the four fields. *)

Record location : Type := mkLocation {
  __chrom__ : option string;
  __pos__ : Z;
  __strand__ : bool;
  __right__ : bool
}.

Definition withPos (loc : location) (pos : Z) : location :=
  mkLocation (__chrom__ loc) pos (__strand__ loc) (__right__ loc).

Definition asTuple (loc : location) : option string * Z * bool * bool :=
  (__chrom__ loc, __pos__ loc, __strand__ loc, __right__ loc).

(** ** [bkptRefAltFromPair] *)

(** ["%d" % n] *)
Definition fmt_d (n : Z) : string := pretty n.

Definition bkptRefAltFromPair (loc1 : location) (loc2 : option location) (refstr : string)
  : result (string * string) :=
  let alt_after := negb (__right__ loc1) in
  bkptstr ←
    match loc2 with
    | None => Ok "."
    | Some loc2 =>
        match __chrom__ loc2 with
        | None => Ok "."
        | Some chrom2 =>
            let delim := if __right__ loc2 then "[" else "]" in
            if bool_decide (__strand__ loc2 = xorb (__right__ loc1) (__right__ loc2))
            then Ok (delim +:+ chrom2 +:+ ":" +:+ fmt_d (__pos__ loc2) +:+ delim)
            else Raise AssertionError
        end
    end;
  let altstr := if alt_after then refstr +:+ bkptstr else bkptstr +:+ refstr in
  Ok (refstr, altstr).

(** ** What the clustering object yields

    Iterating the variant map gives 3-tuples for SNV/indel clusters and
    6-tuples for SV clusters; [len(variant) == 3] tells them apart.  The
    allele of a 3-tuple and the second location of a 6-tuple can be
    [None]. *)

Inductive variant : Type :=
| SNV (loc : location) (allele : option (string * string)) (callers : list string)
| SV (loc1 : location) (loc2 : option location) (callers : list string)
     (medianPos1 medianPos2 : Z) (recordscalled : list (string * record)).

(** [variant[2]] *)
Definition variant_callers (v : variant) : list string :=
  match v with
  | SNV _ _ callers => callers
  | SV _ _ callers _ _ _ => callers
  end.

(** ** Records written to the merged VCF *)

Inductive infoval : Type :=
| IStr (s : string)
| IInt (n : Z).

Record vcfrec : Type := mkVcfrec {
  out_contig : option string;
  out_start : Z;
  out_ref : string;
  out_alts : list string;
  out_filter : list string;
  out_info : gmap string infoval
}.

(** What is printed to [outfile] after the header: a consensus record,
    or in debug mode a commented copy of a member record. *)
Inductive outline : Type :=
| Line (r : vcfrec)
| DebugLine (caller : string) (rec : record).

(** [set(callers)] *)
Definition caller_set (callers : list string) : gset string := list_to_set callers.

(** [str(res)].  Exact on int, str and None; [make_info_dict] stores
    nothing else (see [make_info_dict_scalar]), so the rendering of a
    container, written here without the quoting of [repr], is never
    reached. *)
Fixpoint py_str (v : pyval) : string :=
  match v with
  | VInt z => pretty z
  | VStr s => s
  | VNone => "None"
  | VList l => "[" +:+ String.concat ", " (map py_str l) +:+ "]"
  | VTuple l => "(" +:+ String.concat ", " (map py_str l) +:+ ")"
  end.

(** ** The closures of [merge] *)

Definition passed_variant (noFilter : bool) (r : record) : bool :=
  bool_decide ("PASS" ∈ rec_filter r) || (length (rec_filter r) =? 0)%nat || noFilter.

Definition info_field (infodict : gmap string pyval) (info : gmap string infoval)
    (field : string) : result (gmap string infoval) :=
  match infodict !! field with
  | Some res => res ← unwrap_list res; Ok (<[field := IStr (py_str res)]> info)
  | None => Ok info
  end.

Definition infoString (output_ncallers : bool) (callers : list string)
    (infodict : gmap string pyval) : result (gmap string infoval) :=
  info ← info_field infodict ∅ "SVTYPE";
  info ← info_field infodict info "SVLEN";
  let info :=
    if output_ncallers
    then <["NumCallers" := IInt (Z.of_nat (size (caller_set callers)))]> info
    else info in
  Ok (<["Callers" := IStr (String.concat "," (elements (caller_set callers)))]> info).

(** ** Emission: the body of [for variant in sorted(calldict)] *)

Definition filterstring (min_num_callers : Z) (callers : list string) : string :=
  let num_callers := Z.of_nat (size (caller_set callers)) in
  let passes := (min_num_callers <=? num_callers)%Z in
  if passes then "." else "LOWSUPPORT".

(** The SNV/indel branch. *)
Definition emit_snv (output_ncallers : bool) (min_num_callers : Z)
    (loc : location) (allele : option (string * string)) (callers : list string)
  : list outline :=
  match allele with
  | None => []
  | Some (allele0, allele1) =>
      let '(chrom, pos, _, _) := asTuple loc in
      let info := <["Callers" := IStr (String.concat "," callers)]> ∅ in
      let info :=
        if output_ncallers
        then <["NumCallers" := IStr (pretty (Z.of_nat (size (caller_set callers))))]> info
        else info in
      [Line (mkVcfrec chrom pos allele0 [allele1]
               [filterstring min_num_callers callers] info)]
  end.

(** The SV branch after its chromosome check. *)
Definition emit_sv_body (output_ncallers debug : bool) (min_num_callers : Z)
    (loc1 loc2 : location) (callers : list string) (medianPos1 medianPos2 : Z)
    (recordscalled : list (string * record)) : result (list outline) :=
  let records := map snd recordscalled in
  let avgloc1 := withPos loc1 medianPos1 in
  let avgloc2 := withPos loc2 medianPos2 in
  '(ref, alt) ← bkptRefAltFromPair avgloc1 (Some avgloc2) "N";
  infodict ← make_info_dict records medianPos1 medianPos2;
  info ← infoString output_ncallers callers infodict;
  let line := Line (mkVcfrec (__chrom__ avgloc1) (__pos__ avgloc1) ref [alt]
                      [filterstring min_num_callers callers] info) in
  Ok (line :: (if debug then map (fun cr => DebugLine cr.1 cr.2) recordscalled else [])).

(** [loc2.chrom] handed to [mapped_to_chromosome]: slicing [None] is a
    [TypeError]. *)
Definition mapped_loc (loc : location) : result bool :=
  match __chrom__ loc with
  | Some chrom => Ok (mapped_to_chromosome chrom)
  | None => Raise TypeError
  end.

Definition emit_variant (output_ncallers debug filterByChromosome : bool)
    (min_num_callers : Z) (v : variant) : result (list outline) :=
  match v with
  | SNV loc allele callers =>
      Ok (emit_snv output_ncallers min_num_callers loc allele callers)
  | SV loc1 loc2 callers medianPos1 medianPos2 recordscalled =>
      match loc2 with
      | None => Raise AttributeError
      | Some loc2 =>
          skip ← (if filterByChromosome
                  then mapped ← mapped_loc loc2; Ok (negb mapped)
                  else Ok false);
          if (skip : bool) then Ok []
          else emit_sv_body output_ncallers debug min_num_callers
                 loc1 loc2 callers medianPos1 medianPos2 recordscalled
      end
  end.

(** The whole loop: the lines printed so far, and the exception that
    ended the loop if there was one. *)
Fixpoint emit_all (output_ncallers debug filterByChromosome : bool)
    (min_num_callers : Z) (vs : list variant) : list outline * option exn :=
  match vs with
  | [] => ([], None)
  | v :: vs' =>
      match emit_variant output_ncallers debug filterByChromosome min_num_callers v with
      | Raise e => ([], Some e)
      | Ok ls =>
          let '(rest, e) := emit_all output_ncallers debug filterByChromosome
                              min_num_callers vs' in
          ((ls ++ rest)%list, e)
      end
  end.

(** ** Ingestion: the body of [for (infile, program) in zip(filenames, programs)]

    Opening a file with [pysam.VariantFile] either raises or gives a
    reader whose [fetch()] yields records and may raise at any point.
    The output header ([contigs], [caller] meta lines, INFO declarations)
    and the progress messages printed when [verbose] is set are not part
    of the model. *)

Inductive fetch_stream : Type :=
| Done
| Yield (r : record) (rest : fetch_stream)
| Fail (e : exn).

Inductive vcf_source : Type :=
| Unreadable (e : exn)
| Readable (records : fetch_stream).

(** [except (RuntimeError, TypeError, NameError, AttributeError)] *)
Definition recovered (e : exn) : bool :=
  match e with
  | RuntimeError | TypeError | NameError | AttributeError => true
  | _ => false
  end.

Section Merge.

(** The collaborators.  [addrecord] mutates the map in place, so when it
    raises the map it leaves behind is still there. *)
Variable calldict : Type.
Variable variantmap : Z -> Z -> calldict.
Variable addrecord : calldict -> record -> string -> bool -> calldict * option exn.
Variable sorted_calldict : calldict -> list variant.
Variable VariantFile : string -> vcf_source.

(** The per-record test that decides whether [addrecord] is called. *)
Definition ingested (noFilter filterByChromosome : bool) (r : record) : bool :=
  if negb (passed_variant noFilter r) then false
  else if filterByChromosome && negb (mapped_to_chromosome (rec_chrom r)) then false
  else true.

(** [for record in vcf_reader.fetch()] *)
Fixpoint ingest_records (noFilter filterByChromosome forceSV : bool) (program : string)
    (s : fetch_stream) (d : calldict) : calldict * option exn :=
  match s with
  | Done => (d, None)
  | Fail e => (d, Some e)
  | Yield r rest =>
      if ingested noFilter filterByChromosome r then
        match addrecord d r program forceSV with
        | (d', None) => ingest_records noFilter filterByChromosome forceSV program rest d'
        | (d', Some e) => (d', Some e)
        end
      else ingest_records noFilter filterByChromosome forceSV program rest d
  end.

(** The [try] block. *)
Definition try_file (noFilter filterByChromosome forceSV : bool) (infile program : string)
    (d : calldict) : calldict * option exn :=
  match VariantFile infile with
  | Unreadable e => (d, Some e)
  | Readable s => ingest_records noFilter filterByChromosome forceSV program s d
  end.

(** The [try] block with its handler. *)
Definition ingest_file (noFilter filterByChromosome forceSV debug : bool)
    (infile program : string) (d : calldict) : calldict * option exn :=
  match try_file noFilter filterByChromosome forceSV infile program d with
  | (d', None) => (d', None)
  | (d', Some e) =>
      if recovered e then (if debug then (d', Some e) else (d', None))
      else (d', Some e)
  end.

Fixpoint ingest_files (noFilter filterByChromosome forceSV debug : bool)
    (inputs : list (string * string)) (d : calldict) : calldict * option exn :=
  match inputs with
  | [] => (d, None)
  | (infile, program) :: inputs' =>
      match ingest_file noFilter filterByChromosome forceSV debug infile program d with
      | (d', None) => ingest_files noFilter filterByChromosome forceSV debug inputs' d'
      | (d', Some e) => (d', Some e)
      end
  end.

(** [merge]: the lines printed to [outfile] after the header and the
    exception that ended the run, if any.  Nothing is printed before
    ingestion is over.  [verbose] only drives messages on standard
    output and is not a parameter here. *)
Definition merge (filenames programs : list string) (forceSV : bool) (slop : Z)
    (output_ncallers : bool) (min_num_callers : Z)
    (filterByChromosome noFilter debug : bool) : list outline * option exn :=
  let calldict0 := variantmap 0 slop in
  match ingest_files noFilter filterByChromosome forceSV debug
          (zip filenames programs) calldict0 with
  | (_, Some e) => ([], Some e)
  | (calldict1, None) =>
      emit_all output_ncallers debug filterByChromosome min_num_callers
        (sorted_calldict calldict1)
  end.

End Merge.

(** A stand-in for the clustering object that only logs the calls it
    receives: enough to run the driver on concrete files. *)
Module CallLog.

Definition calldict : Type := list (record * string * bool).

Definition variantmap (awindow svwindow : Z) : calldict := [].

Definition addrecord (d : calldict) (r : record) (program : string) (forceSV : bool)
  : calldict * option exn := ((d ++ [(r, program, forceSV)])%list, @None exn).

End CallLog.

(** ** [readMergedCalls]

    A record of a merged call set as the function reads it.  [merge]
    writes the reference allele of a pysam record through the attribute
    [ref]; the upper-case [REF] is read only here, so reading it is kept
    fallible.  [mr_alts] is [rec.alts], [None] for a record without ALT,
    and [mr_Callers] is [rec.info['Callers']] when the key is there. *)

Record merged_record : Type := mkMerged {
  mr_chrom : string;
  mr_pos : Z;
  mr_REF : result string;
  mr_alts : option (list string);
  mr_Callers : option (list string)
}.

(** [pysam.VariantFile(infile)] followed by [fetch()]: the records read
    and the exception that ended the reading, if any. *)
Inductive merged_source : Type :=
| MUnreadable (e : exn)
| MReadable (records : list merged_record) (failure : option exn).

(** An element of [callIdxToCall]:
    [(len(called), chrom, posstart, REF, ALT, ",".join(called))]. *)
Definition call_summary : Type := nat * string * Z * string * string * string.

(** [callerIdx], [callsets] and [callerIdxDict]. *)
Record caller_index : Type := mkIndex {
  callerIdx : nat;
  callsets : list (list nat);
  callerIdxDict : gmap string nat
}.

(** The body of [if not (caller in called) and not (caller in
    skipcallers)] after [called.append(caller)]: register a caller seen
    for the first time, then append the call to its call set. *)
Definition register_call (callIdx : nat) (caller : string) (ix : caller_index)
  : result caller_index :=
  let ix :=
    match callerIdxDict ix !! caller with
    | Some _ => ix
    | None =>
        mkIndex (S (callerIdx ix)) (callsets ix ++ [[]])
          (<[caller := callerIdx ix]> (callerIdxDict ix))
    end in
  match callerIdxDict ix !! caller with
  | None => Raise KeyError
  | Some i =>
      match callsets ix !! i with
      | None => Raise IndexError
      | Some calls =>
          Ok (mkIndex (callerIdx ix) (<[i := (calls ++ [callIdx])%list]> (callsets ix))
                (callerIdxDict ix))
      end
  end.

(** [for caller in callers] *)
Fixpoint callers_loop (skipcallers : list string) (callIdx : nat) (callers : list string)
    (called : list string) (ncalledthis : nat) (ix : caller_index)
  : result (list string * nat * caller_index) :=
  match callers with
  | [] => Ok (called, ncalledthis, ix)
  | caller :: callers' =>
      if negb (bool_decide (caller ∈ called)) && negb (bool_decide (caller ∈ skipcallers))
      then
        ix' ← register_call callIdx caller ix;
        callers_loop skipcallers callIdx callers' (called ++ [caller]) (S ncalledthis) ix'
      else callers_loop skipcallers callIdx callers' called ncalledthis ix
  end.

Record read_state : Type := mkRead {
  rs_callIdx : nat;
  rs_index : caller_index;
  rs_calls : list call_summary
}.

(** [list(rec.alts)[0]] *)
Definition first_alt (alts : option (list string)) : result string :=
  match alts with
  | None => Raise TypeError
  | Some [] => Raise IndexError
  | Some (alt :: _) => Ok alt
  end.

(** The body of [for rec in invcf.fetch()] *)
Definition read_record (filterByChromosome : bool) (skipcallers : list string)
    (rec : merged_record) (st : read_state) : result read_state :=
  if filterByChromosome && negb (mapped_to_chromosome (mr_chrom rec)) then Ok st
  else
    all ← match mr_Callers rec with
          | Some l => Ok l
          | None => Raise KeyError
          end;
    let callers := filter (fun c => c ∉ skipcallers) all in
    '(called, ncalledthis, ix) ←
      callers_loop skipcallers (rs_callIdx st) callers [] 0 (rs_index st);
    if negb (length called =? ncalledthis)%nat then Raise AssertionError
    else if (0 <? ncalledthis)%nat then
      let chrom := mr_chrom rec in
      let posstart := mr_pos rec in
      REF ← mr_REF rec;
      alt ← first_alt (mr_alts rec);
      Ok (mkRead (S (rs_callIdx st)) ix
            (rs_calls st
             ++ [(length called, chrom, posstart, REF, alt, String.concat "," called)]))
    else Ok (mkRead (rs_callIdx st) ix (rs_calls st)).

Fixpoint read_records (filterByChromosome : bool) (skipcallers : list string)
    (records : list merged_record) (st : read_state) : result read_state :=
  match records with
  | [] => Ok st
  | rec :: records' =>
      st' ← read_record filterByChromosome skipcallers rec st;
      read_records filterByChromosome skipcallers records' st'
  end.

(** [readMergedCalls]; [readINFO] is not used by the function. *)
Definition readMergedCalls (VariantFile : string -> merged_source) (infile : string)
    (filterByChromosome readINFO : bool) (skipcallers : option (list string))
  : result (gmap string nat * list (list nat) * list call_summary) :=
  match VariantFile infile with
  | MUnreadable e => Raise e
  | MReadable records failure =>
      let skipcallers := default [] skipcallers in
      st ← read_records filterByChromosome skipcallers records
             (mkRead 0 (mkIndex 0 [] ∅) []);
      match failure with
      | Some e => Raise e
      | None =>
          Ok (callerIdxDict (rs_index st), callsets (rs_index st), rs_calls st)
      end
  end.

(** *** What [readMergedCalls] is meant to compute, as plain functions *)

(** The elements of [l] not in [seen], each at its first occurrence. *)
Fixpoint first_occurrences (seen l : list string) : list string :=
  match l with
  | [] => []
  | x :: l' =>
      if bool_decide (x ∈ seen) then first_occurrences seen l'
      else x :: first_occurrences (seen ++ [x]) l'
  end.

(** The callers a record is attributed to. *)
Definition called_names (filterByChromosome : bool) (skipcallers : list string)
    (rec : merged_record) : list string :=
  if filterByChromosome && negb (mapped_to_chromosome (mr_chrom rec)) then []
  else first_occurrences []
         (filter (fun c => c ∉ skipcallers) (default [] (mr_Callers rec))).

(** The records that are calls: those attributed to a caller at least. *)
Definition kept_records (filterByChromosome : bool) (skipcallers : list string)
    (records : list merged_record) : list merged_record :=
  filter (fun rec => called_names filterByChromosome skipcallers rec <> []) records.

(** The caller lists of the calls, in call order. *)
Definition call_lists (filterByChromosome : bool) (skipcallers : list string)
    (records : list merged_record) : list (list string) :=
  map (called_names filterByChromosome skipcallers)
    (kept_records filterByChromosome skipcallers records).

(** The summary of a call. *)
Definition summary_of (filterByChromosome : bool) (skipcallers : list string)
    (rec : merged_record) : result call_summary :=
  let called := called_names filterByChromosome skipcallers rec in
  REF ← mr_REF rec;
  alt ← first_alt (mr_alts rec);
  Ok (length called, mr_chrom rec, mr_pos rec, REF, alt, String.concat "," called).

(** The indices, counted from [n], of the lists that name [c]. *)
Fixpoint indices_from (n : nat) (c : string) (L : list (list string)) : list nat :=
  match L with
  | [] => []
  | called :: L' =>
      ((if bool_decide (c ∈ called) then [n] else []) ++ indices_from (S n) c L')%list
  end.

(** *** The invariant of the caller index

    [L] lists the callers of the calls made so far.  The index agrees
    with [L] when each registered caller has the call set made of the
    indices of the calls that name it, the numbering of the callers is
    one to one onto the positions of [callsets], and every caller named
    in [L] is registered. *)
Definition index_core (L : list (list string)) (ix : caller_index) : Prop :=
  length (callsets ix) = callerIdx ix
  /\ (forall c i, callerIdxDict ix !! c = Some i ->
        callsets ix !! i = Some (indices_from 0 c L))
  /\ (forall c c' i, callerIdxDict ix !! c = Some i ->
        callerIdxDict ix !! c' = Some i -> c = c')
  /\ (forall i, (i < callerIdx ix)%nat -> exists c, callerIdxDict ix !! c = Some i)
  /\ (forall c called, called ∈ L -> c ∈ called -> is_Some (callerIdxDict ix !! c)).

(** Every registered caller is named by a call. *)
Definition index_named (L : list (list string)) (ix : caller_index) : Prop :=
  forall c i, callerIdxDict ix !! c = Some i -> exists called, called ∈ L /\ c ∈ called.

(** The callers in the order in which the calls first name them. *)
Definition caller_order (L : list (list string)) : list string :=
  first_occurrences [] (List.concat L).

(** The number of a caller is its rank in that order. *)
Definition index_order (L : list (list string)) (ix : caller_index) : Prop :=
  length (caller_order L) = callerIdx ix
  /\ forall c i, callerIdxDict ix !! c = Some i <-> caller_order L !! i = Some c.

Definition index_for (L : list (list string)) (ix : caller_index) : Prop :=
  index_core L ix /\ index_named L ix /\ index_order L ix.

(** The state of the reading loop after the records [seen]: the call
    counter, the caller index and the summaries are those of the calls
    among [seen]. *)
Definition read_inv (filterByChromosome : bool) (skipcallers : list string)
    (seen : list merged_record) (st : read_state) : Prop :=
  rs_callIdx st = length (call_lists filterByChromosome skipcallers seen)
  /\ index_for (call_lists filterByChromosome skipcallers seen) (rs_index st)
  /\ mapM (summary_of filterByChromosome skipcallers)
        (kept_records filterByChromosome skipcallers seen) = Ok (rs_calls st).

(** The exception a record makes the reading loop raise, if any: a
    record that passes the chromosome filter needs the Callers key, and a
    record that is a call needs a readable REF and a first ALT. *)
Definition record_error (filterByChromosome : bool) (skipcallers : list string)
    (rec : merged_record) : option exn :=
  if filterByChromosome && negb (mapped_to_chromosome (mr_chrom rec)) then None
  else
    match mr_Callers rec with
    | None => Some KeyError
    | Some _ =>
        match called_names filterByChromosome skipcallers rec with
        | [] => None
        | _ :: _ =>
            match mr_REF rec, first_alt (mr_alts rec) with
            | Raise e, _ => Some e
            | Ok _, Raise e => Some e
            | Ok _, Ok _ => None
            end
        end
    end.

(** ** Auxiliary definitions for the statements *)

(** [a <= b] in the order the sort uses: [b < a] is defined and false. *)
Definition py_le (a b : pyval) : Prop := py_lt b a = Ok false.

(** The element the spec's wording names for an even count: the lower of
    the two middle elements of the sorted list. *)
Definition lower_median (sorted_answers : list pyval) : option pyval :=
  sorted_answers !! ((length sorted_answers - 1) / 2)%nat.

(** What one round of the loop leaves under its field. *)
Definition stored (records : list record) (field : string) (old : option pyval)
  : option pyval :=
  match median_answer field records with
  | Ok (Some m) => if py_eq_zero m then old else Some m
  | _ => old
  end.

(** The consensus records among the lines printed. *)
Definition printed_records (ls : list outline) : list vcfrec :=
  omap (fun l => match l with Line r => Some r | DebugLine _ _ => None end) ls.

(** The records a reader yields before it ends or fails, and the
    exception it ends with. *)
Fixpoint stream_records (s : fetch_stream) : list record :=
  match s with
  | Done | Fail _ => []
  | Yield r rest => r :: stream_records rest
  end.

Fixpoint stream_failure (s : fetch_stream) : option exn :=
  match s with
  | Done => None
  | Fail e => Some e
  | Yield _ rest => stream_failure rest
  end.

(** Sample inputs. *)
Definition call_a : merged_record :=
  mkMerged "1" 100 (Ok "A") (Some ["T"]) (Some ["delly"; "lumpy"; "delly"]).

Definition call_b : merged_record :=
  mkMerged "GL000220.1" 5 (Ok "N") (Some ["N[2:7["]) (Some ["manta"]).

Definition call_c : merged_record :=
  mkMerged "2" 300 (Ok "N") (Some ["<DEL>"]) (Some ["lumpy"; "manta"]).

Definition merged_files (infile : string) : merged_source :=
  if String.eqb infile "merged.vcf" then MReadable [call_a; call_b; call_c] None
  else MUnreadable OSError.

Definition sv_example (chrom2 : string) (callers : list string) : variant :=
  SV (mkLocation (Some "1") 1000 true false)
     (Some (mkLocation (Some chrom2) 2000 true true))
     callers 1002 2001
     (map (fun c => (c, rec_with [("SVTYPE", VStr "DEL"); ("END", VInt 2001)])) callers).

Definition good_record : record := mkRecord "1" 100 "A" ["T"] ["PASS"] ∅.

(** A file system with one file that pysam rejects with [ValueError],
    one that breaks after its first record, one whose reading ends in a
    [TypeError], and readable files otherwise. *)
Definition files (infile : string) : vcf_source :=
  if String.eqb infile "invalid.vcf" then Unreadable ValueError
  else if String.eqb infile "truncated.vcf" then Readable (Yield good_record (Fail ValueError))
  else if String.eqb infile "broken.vcf" then Readable (Yield good_record (Fail TypeError))
  else Readable (Yield good_record Done).

(** * Properties *)

(** ** The error monad *)

Lemma bind_Ok {A B : Type} (m : result A) (f : A -> result B) (b : B) :
  m ≫= f = Ok b -> exists a, m = Ok a /\ f a = Ok b.
Proof. destruct m as [a|e]; simpl; [eauto | discriminate]. Qed.

Lemma bind_Raise {A B : Type} (m : result A) (f : A -> result B) (e : exn) :
  m = Raise e -> m ≫= f = Raise e.
Proof. intros ->. reflexivity. Qed.

Ltac inv_bind H :=
  let a := fresh "a" in
  let Ha := fresh "Ha" in
  apply bind_Ok in H; destruct H as (a & Ha & H).

(** ** [int()] and [int_if_possible] *)

Example int_if_possible_num : int_if_possible (VStr " -1_000 ") = Ok (VInt (-1000)).
Proof. reflexivity. Qed.

Example int_if_possible_text :
  int_if_possible (VList [VStr "DEL"; VStr "7"]) = Ok (VStr "DEL").
Proof. reflexivity. Qed.

Example int_if_possible_tuple : int_if_possible (VTuple [VInt 3]) = Raise TypeError.
Proof. reflexivity. Qed.

Example int_of_str_rejects :
  map int_of_str ["" ; "1.5"; "_1"; "1__0"; "1_"; "- 1"; "0x10"; "1 2"]
  = [None; None; None; None; None; None; None; None].
Proof. reflexivity. Qed.

Example int_of_str_accepts :
  map int_of_str ["007"; "+12"; "-0"; "1_0"] = [Some 7; Some 12; Some 0; Some 10].
Proof. reflexivity. Qed.

(** [int()] raises [ValueError] on text only, and only that. *)
Lemma py_int_ValueError (v : pyval) :
  py_int v = Raise ValueError -> exists s, v = VStr s.
Proof.
  destruct v; simpl; try discriminate.
  intros _. eauto.
Qed.

Lemma py_int_raises (v : pyval) (e : exn) :
  py_int v = Raise e -> e = ValueError \/ e = TypeError.
Proof.
  destruct v; simpl; try discriminate; try (injection 1 as <-; auto).
  destruct (int_of_str s); [discriminate | injection 1 as <-; auto].
Qed.

(** What comes out of [int_if_possible] is an int or a str. *)
Lemma int_if_possible_scalar (val r : pyval) :
  int_if_possible val = Ok r -> is_scalar r = true.
Proof.
  unfold int_if_possible. intros H. inv_bind H.
  destruct (py_int a) as [i|e] eqn:Hi.
  - injection H as <-. reflexivity.
  - destruct e; try discriminate. injection H as <-.
    apply py_int_ValueError in Hi as [s ->]. reflexivity.
Qed.

(** ** The answers of one field *)

Lemma answers_of_scalar (field : string) (records : list record) (acc answers : list pyval) :
  Forall (fun v => is_scalar v = true) acc ->
  answers_of field records acc = Ok answers ->
  Forall (fun v => is_scalar v = true) answers.
Proof.
  revert acc. induction records as [|r records IH]; intros acc Hacc; simpl.
  - by injection 1 as <-.
  - destruct (rec_info r !! field) as [v|]; [|by apply IH].
    destruct (int_if_possible v) as [a|e] eqn:Ha; simpl; [|discriminate].
    apply IH. apply Forall_app. split; [done|].
    constructor; [|constructor]. by eapply int_if_possible_scalar.
Qed.

(** A failing conversion in any record aborts the collection. *)
Lemma answers_of_raises (field : string) (records : list record) (acc : list pyval)
    (r : record) (v : pyval) (e : exn) :
  r ∈ records -> rec_info r !! field = Some v -> int_if_possible v = Raise e ->
  exists e', answers_of field records acc = Raise e'.
Proof.
  intros Hin Hv He. revert acc.
  induction records as [|r' records IH]; intros acc; [by apply elem_of_nil in Hin|].
  simpl. apply elem_of_cons in Hin as [<-|Hin].
  - rewrite Hv, He. simpl. eauto.
  - destruct (rec_info r' !! field) as [v'|]; [|by apply IH].
    destruct (int_if_possible v'); simpl; [by apply IH | eauto].
Qed.

(** ** [sorted()] *)

Lemma insert_sorted_perm (x : pyval) (l s : list pyval) :
  insert_sorted x l = Ok s -> s ≡ₚ x :: l.
Proof.
  revert s. induction l as [|y l IH]; intros s; simpl.
  - by injection 1 as <-.
  - destruct (py_lt y x) as [[]|]; simpl; try discriminate.
    + intros H. inv_bind H. injection H as <-.
      rewrite (IH _ Ha). apply Permutation_swap.
    + by injection 1 as <-.
Qed.

Lemma sorted_from_perm (acc l s : list pyval) :
  sorted_from acc l = Ok s -> s ≡ₚ (acc ++ l)%list.
Proof.
  revert acc s. induction l as [|x l IH]; intros acc s; simpl.
  - injection 1 as <-. by rewrite app_nil_r.
  - intros H. inv_bind H. rewrite (IH _ _ H).
    rewrite (insert_sorted_perm _ _ _ Ha). simpl. apply Permutation_middle.
Qed.

Lemma py_sorted_perm (l s : list pyval) : py_sorted l = Ok s -> s ≡ₚ l.
Proof. apply sorted_from_perm. Qed.

Lemma py_sorted_length (l s : list pyval) : py_sorted l = Ok s -> length s = length l.
Proof. intros H. by rewrite (py_sorted_perm _ _ H). Qed.

(** [<] is asymmetric and total where it is defined. *)
Lemma py_lt_true_le (a b : pyval) : py_lt a b = Ok true -> py_le a b.
Proof.
  unfold py_le. destruct a, b; simpl; try discriminate; injection 1 as H; f_equal.
  - apply Z.ltb_lt in H. apply Z.ltb_ge. lia.
  - unfold String.ltb in *. rewrite String.compare_antisym.
    destruct (String.compare s s0); done.
Qed.

Lemma insert_sorted_sorted (x : pyval) (l s : list pyval) :
  Sorted py_le l -> insert_sorted x l = Ok s -> Sorted py_le s.
Proof.
  revert s. induction l as [|y l IH]; intros s Hl; simpl.
  - injection 1 as <-. repeat constructor.
  - destruct (py_lt y x) as [[]|] eqn:Hyx; simpl; try discriminate.
    + intros H. inv_bind H. injection H as <-.
      apply Sorted_inv in Hl as [Hl Hhd].
      constructor; [by apply IH|].
      destruct l as [|z l]; simpl in Ha.
      * injection Ha as <-. constructor. by apply py_lt_true_le.
      * destruct (py_lt z x) as [[]|]; simpl in Ha; try discriminate.
        -- inv_bind Ha. injection Ha as <-. constructor. by inversion Hhd.
        -- injection Ha as <-. constructor. by apply py_lt_true_le.
    + injection 1 as <-. constructor; [done|]. by constructor.
Qed.

Lemma sorted_from_sorted (acc l s : list pyval) :
  Sorted py_le acc -> sorted_from acc l = Ok s -> Sorted py_le s.
Proof.
  revert acc s. induction l as [|x l IH]; intros acc s Hacc; simpl.
  - by injection 1 as <-.
  - intros H. inv_bind H. eapply IH; [|done]. by eapply insert_sorted_sorted.
Qed.

(** The result of [sorted()] has the same elements, in order. *)
Lemma py_sorted_sorted (l s : list pyval) : py_sorted l = Ok s -> Sorted py_le s.
Proof. apply sorted_from_sorted. constructor. Qed.

(** Ints sort without error. *)
Lemma insert_sorted_ints (z : Z) (zs : list Z) :
  exists zs', insert_sorted (VInt z) (VInt <$> zs) = Ok (VInt <$> zs').
Proof.
  induction zs as [|y zs [zs' IH]].
  - by exists [z].
  - rewrite fmap_cons. cbn [insert_sorted py_lt mbind result_bind].
    destruct (y <? z)%Z.
    + rewrite IH. by exists (y :: zs').
    + by exists (z :: y :: zs).
Qed.

Lemma py_sorted_ints (zs : list Z) :
  exists zs', py_sorted (VInt <$> zs) = Ok (VInt <$> zs').
Proof.
  unfold py_sorted. change (@nil pyval) with (VInt <$> @nil Z). generalize (@nil Z).
  induction zs as [|z zs IH]; intros acc.
  - by exists acc.
  - rewrite fmap_cons. cbn [sorted_from].
    destruct (insert_sorted_ints z acc) as [acc' ->]. apply IH.
Qed.

Example py_sorted_mixed : py_sorted [VInt 3; VStr "DEL"] = Raise TypeError.
Proof. reflexivity. Qed.

Example py_sorted_strs :
  py_sorted [VStr "INV"; VStr "DEL"; VStr "DUP"] = Ok [VStr "DEL"; VStr "DUP"; VStr "INV"].
Proof. reflexivity. Qed.

(** ** The median of one field *)

Example median_two :
  median_answer "END" [rec_with [("END", VInt 10)]; rec_with [("END", VStr "20")]]
  = Ok (Some (VInt 20)).
Proof. vm_compute. reflexivity. Qed.

Example median_three :
  median_answer "SVLEN"
    [rec_with [("SVLEN", VInt 30)]; rec_with [("SVLEN", VInt 10)]; rec_with [("SVLEN", VInt 20)]]
  = Ok (Some (VInt 20)).
Proof. vm_compute. reflexivity. Qed.

Lemma median_answer_index (field : string) (records : list record) (answers s : list pyval) :
  answers_of field records [] = Ok answers ->
  (0 < length answers)%nat ->
  py_sorted answers = Ok s ->
  exists m, s !! (length answers / 2)%nat = Some m
            /\ median_answer field records = Ok (Some m).
Proof.
  intros Hans Hn Hs. unfold median_answer. rewrite Hans. cbn [mbind result_bind].
  destruct (Nat.ltb_spec 0 (length answers)) as [_|]; [|lia].
  rewrite Hs. cbn [mbind result_bind].
  destruct (lookup_lt_is_Some_2 s (length answers / 2)%nat) as [m Hm].
  { rewrite (py_sorted_length _ _ Hs). apply Nat.div_lt; lia. }
  exists m. by rewrite Hm.
Qed.

Lemma median_answer_none (field : string) (records : list record) :
  answers_of field records [] = Ok [] -> median_answer field records = Ok None.
Proof. intros H. unfold median_answer. by rewrite H. Qed.

(** ** The loop over the fields *)

Lemma info_step_lookup (records : list record) (info info' : gmap string pyval)
    (field f : string) :
  info_step records info field = Ok info' ->
  info' !! f = if decide (f = field) then stored records field (info !! f) else info !! f.
Proof.
  unfold info_step, stored. intros H. inv_bind H. rewrite Ha.
  destruct a as [m|]; [destruct (py_eq_zero m)|]; injection H as <-.
  - by destruct (decide (f = field)).
  - destruct (decide (f = field)) as [->|]; [apply lookup_insert_eq|].
    by apply lookup_insert_ne.
  - by destruct (decide (f = field)).
Qed.

Lemma info_loop_lookup (fs : list string) (records : list record)
    (info0 info : gmap string pyval) (f : string) :
  NoDup fs ->
  info_loop fs records info0 = Ok info ->
  info !! f = if decide (f ∈ fs) then stored records f (info0 !! f) else info0 !! f.
Proof.
  intros Hnd. revert info0.
  induction Hnd as [|field fs Hnotin Hnd IH]; intros info0; simpl.
  - injection 1 as <-. by destruct (decide (f ∈ [])) as [?%elem_of_nil|].
  - intros H. inv_bind H. rewrite (IH _ H).
    rewrite (info_step_lookup _ _ _ _ f Ha).
    destruct (decide (f = field)) as [->|Hne].
    + destruct (decide (field ∈ fs)); [done|].
      destruct (decide (field ∈ field :: fs)) as [|[]]; [done | by left].
    + destruct (decide (f ∈ fs)) as [Hin|Hnin].
      * destruct (decide (f ∈ field :: fs)) as [|[]]; [done | by right].
      * destruct (decide (f ∈ field :: fs)) as [[->|]%elem_of_cons|]; done.
Qed.

Lemma fields_NoDup : NoDup fields.
Proof. compute_done. Qed.

Lemma make_info_dict_Ok (records : list record) (pos1 pos2 : Z) (info : gmap string pyval) :
  make_info_dict records pos1 pos2 = Ok info <->
  exists info0, info_loop fields records ∅ = Ok info0 /\ info = synth_svlen info0 pos1 pos2.
Proof.
  unfold make_info_dict. split.
  - intros H. inv_bind H. injection H as <-. eauto.
  - intros (info0 & -> & ->). reflexivity.
Qed.

Lemma synth_svlen_lookup_ne (info : gmap string pyval) (pos1 pos2 : Z) (f : string) :
  f <> "SVLEN" -> synth_svlen info pos1 pos2 !! f = info !! f.
Proof.
  intros Hne. unfold synth_svlen.
  destruct (info !! "SVTYPE") as [t|]; [|done].
  destruct (sized_svtype t); [|done].
  destruct (info !! "SVLEN"); [done|]. by apply lookup_insert_ne.
Qed.

Lemma stored_scalar (records : list record) (field : string) (v : pyval) :
  stored records field None = Some v -> is_scalar v = true.
Proof.
  unfold stored, median_answer.
  destruct (answers_of field records []) as [answers|] eqn:Hans; [|done].
  cbn [mbind result_bind]. destruct (0 <? length answers)%nat; [|done].
  destruct (py_sorted answers) as [s|] eqn:Hs; [|done]. cbn [mbind result_bind].
  destruct (s !! (length answers / 2)%nat) as [m|] eqn:Hm; [|done].
  destruct (py_eq_zero m); [done|]. injection 1 as <-.
  apply list_elem_of_lookup_2 in Hm. rewrite (py_sorted_perm _ _ Hs) in Hm.
  apply answers_of_scalar in Hans; [|constructor].
  by eapply Forall_forall in Hans.
Qed.

(** Every value of the returned dictionary is an int or a str. *)
Lemma make_info_dict_scalar (records : list record) (pos1 pos2 : Z)
    (info : gmap string pyval) (f : string) (v : pyval) :
  make_info_dict records pos1 pos2 = Ok info -> info !! f = Some v -> is_scalar v = true.
Proof.
  intros (info0 & Hloop & ->)%make_info_dict_Ok.
  assert (H0 : forall g w, info0 !! g = Some w -> is_scalar w = true).
  { intros g w. rewrite (info_loop_lookup _ _ _ _ g fields_NoDup Hloop).
    rewrite lookup_empty. destruct (decide (g ∈ fields)); [|done].
    apply stored_scalar. }
  unfold synth_svlen.
  destruct (info0 !! "SVTYPE") as [t|]; [|by apply H0].
  destruct (sized_svtype t); [|by apply H0].
  destruct (info0 !! "SVLEN"); [by apply H0|].
  destruct (decide (f = "SVLEN")) as [->|Hne].
  - rewrite lookup_insert_eq. by injection 1 as <-.
  - rewrite lookup_insert_ne by done. apply H0.
Qed.

Lemma info_loop_raises (fs : list string) (records : list record)
    (info0 : gmap string pyval) (field : string) (e : exn) :
  field ∈ fs -> median_answer field records = Raise e ->
  exists e', info_loop fs records info0 = Raise e'.
Proof.
  intros Hin Hraise. revert info0.
  induction fs as [|f fs IH]; intros info0; [by apply elem_of_nil in Hin|].
  simpl. destruct (info_step records info0 f) as [info'|e'] eqn:Hstep.
  - apply elem_of_cons in Hin as [->|Hin]; [|by apply IH].
    unfold info_step in Hstep. rewrite Hraise in Hstep. discriminate.
  - simpl. eauto.
Qed.

Lemma Sorted_lookup_succ {A : Type} (R : A -> A -> Prop) (l : list A) (i : nat) (a b : A) :
  Sorted R l -> l !! i = Some a -> l !! S i = Some b -> R a b.
Proof.
  intros Hs. revert i. induction Hs as [|x l Hs IH Hhd]; intros i; [done|].
  destruct i as [|i]; simpl.
  - injection 1 as ->. destruct Hhd as [|y l' Hxy]; simpl; [done|].
    by injection 1 as ->.
  - apply IH.
Qed.

(** C10: [int_if_possible] takes the first element of a list argument,
    returns [int(val)] when the conversion succeeds and the unwrapped
    value itself when it raises [ValueError]; any other exception of the
    conversion, such as the [TypeError] of [int(None)], is not handled and
    makes [make_info_dict] raise as well. *)
Theorem int_if_possible_conversion (val : pyval) :
  (forall x l, val = VList (x :: l) -> unwrap_list val = Ok x) /\
  ((forall l, val <> VList l) -> unwrap_list val = Ok val) /\
  (forall v, unwrap_list val = Ok v ->
     (forall i, py_int v = Ok i -> int_if_possible val = Ok (VInt i)) /\
     (py_int v = Raise ValueError -> int_if_possible val = Ok v) /\
     (forall e, py_int v = Raise e -> e <> ValueError -> int_if_possible val = Raise e)) /\
  (val = VNone -> int_if_possible val = Raise TypeError) /\
  (forall field records r pos1 pos2 e,
     field ∈ fields -> r ∈ records -> rec_info r !! field = Some val ->
     int_if_possible val = Raise e ->
     exists e', make_info_dict records pos1 pos2 = Raise e').
Proof.
  repeat split.
  - by intros x l ->.
  - intros Hnl. destruct val; try done. by destruct (Hnl l).
  - intros i Hi. unfold int_if_possible. rewrite H. cbn [mbind result_bind]. by rewrite Hi.
  - intros Hi. unfold int_if_possible. rewrite H. cbn [mbind result_bind]. by rewrite Hi.
  - intros e He Hne. unfold int_if_possible. rewrite H. cbn [mbind result_bind].
    rewrite He. by destruct e.
  - by intros ->.
  - intros field records r pos1 pos2 e Hf Hr Hv He.
    destruct (answers_of_raises field records [] r val e Hr Hv He) as [e1 He1].
    destruct (info_loop_raises fields records ∅ field e1 Hf) as [e2 He2].
    { unfold median_answer. by rewrite He1. }
    exists e2. unfold make_info_dict. by rewrite He2.
Qed.

Lemma int_if_possible_conversion_witness :
  int_if_possible (VList [VStr "42"; VStr "x"]) = Ok (VInt 42)
  /\ int_if_possible (VStr "DEL") = Ok (VStr "DEL")
  /\ int_if_possible (VTuple [VInt 5]) = Raise TypeError
  /\ exists e', make_info_dict [rec_with [("SVLEN", VNone)]] 10 20 = Raise e'.
Proof.
  split; [|split; [|split]].
  - apply (proj1 (proj1 (proj2 (proj2 (int_if_possible_conversion
             (VList [VStr "42"; VStr "x"])))) (VStr "42") eq_refl) 42). reflexivity.
  - apply (proj1 (proj2 (proj1 (proj2 (proj2 (int_if_possible_conversion
             (VStr "DEL")))) (VStr "DEL") eq_refl))). reflexivity.
  - apply (proj2 (proj2 (proj1 (proj2 (proj2 (int_if_possible_conversion
             (VTuple [VInt 5])))) (VTuple [VInt 5]) eq_refl)) TypeError);
      [reflexivity | discriminate].
  - apply (proj2 (proj2 (proj2 (proj2 (int_if_possible_conversion VNone))))
             "SVLEN" [rec_with [("SVLEN", VNone)]] (rec_with [("SVLEN", VNone)]) 10 20 TypeError).
    + do 3 apply list_elem_of_further. apply list_elem_of_here.
    + apply list_elem_of_here.
    + vm_compute. reflexivity.
    + reflexivity.
Defined.

(** C2 (as stated, refuted): with the two collected values 10 and 20 the
    lower of the two middle elements is 10, and the code answers 20. *)
Lemma median_answer_not_lower :
  let records := [rec_with [("END", VInt 10)]; rec_with [("END", VInt 20)]] in
  answers_of "END" records [] = Ok [VInt 10; VInt 20]
  /\ py_sorted [VInt 10; VInt 20] = Ok [VInt 10; VInt 20]
  /\ lower_median [VInt 10; VInt 20] = Some (VInt 10)
  /\ median_answer "END" records = Ok (Some (VInt 20))
  /\ (info ← make_info_dict records 0 0; Ok (info !! "END")) = Ok (Some (VInt 20)).
Proof. vm_compute. repeat split; reflexivity. Qed.

(** C2 (amended): for an even number [2k] of collected values the
    consensus value is the element at index [k] of the sorted list, the
    upper of the two middle elements and never an average; it is what the
    loop stores under the field unless it equals 0.  For the collected
    values 10 and 20 the result is 20. *)
Theorem median_answer_even_upper (field : string) (records : list record)
    (answers s : list pyval) (k : nat) (info : gmap string pyval) :
  answers_of field records [] = Ok answers ->
  length answers = (2 * k)%nat -> (0 < k)%nat ->
  py_sorted answers = Ok s ->
  (exists below m,
      s !! (k - 1)%nat = Some below /\ s !! k = Some m /\ py_le below m /\
      m ∈ answers /\
      median_answer field records = Ok (Some m) /\
      info_step records info field
      = Ok (if py_eq_zero m then info else <[field := m]> info))
  /\ (answers = [VInt 10; VInt 20] -> median_answer field records = Ok (Some (VInt 20))).
Proof.
  intros Hans Hlen Hk Hs.
  destruct (median_answer_index field records answers s Hans) as (m & Hm & Hmed);
    [lia | done |].
  assert (Hdiv : (length answers / 2)%nat = k).
  { rewrite Hlen, Nat.mul_comm. apply Nat.div_mul. lia. }
  rewrite Hdiv in Hm. split.
  - destruct (lookup_lt_is_Some_2 s (k - 1)%nat) as [below Hb].
    { rewrite (py_sorted_length _ _ Hs). lia. }
    exists below, m. repeat split; try done.
    + apply (Sorted_lookup_succ py_le s (k - 1)%nat); [by eapply py_sorted_sorted | done |].
      by replace (S (k - 1)) with k by lia.
    + rewrite <- (py_sorted_perm _ _ Hs). by eapply list_elem_of_lookup_2.
    + unfold info_step. rewrite Hmed. cbn [mbind result_bind]. by destruct (py_eq_zero m).
  - intros ->. rewrite Hmed. injection Hs as <-.
    assert (k = 1%nat) as -> by (simpl in Hlen; lia).
    by injection Hm as <-.
Qed.

Lemma median_answer_even_upper_witness :
  let records := [rec_with [("END", VInt 20)]; rec_with [("END", VInt 10)]] in
  (exists below m,
      [VInt 10; VInt 20] !! (1 - 1)%nat = Some below /\ [VInt 10; VInt 20] !! 1%nat = Some m
      /\ py_le below m /\ m ∈ [VInt 20; VInt 10]
      /\ median_answer "END" records = Ok (Some m)
      /\ info_step records ∅ "END" = Ok (if py_eq_zero m then ∅ else <["END" := m]> ∅))
  /\ ([VInt 20; VInt 10] = [VInt 10; VInt 20] ->
      median_answer "END" records = Ok (Some (VInt 20))).
Proof.
  intros records.
  apply (median_answer_even_upper "END" records [VInt 20; VInt 10] [VInt 10; VInt 20] 1 ∅).
  - vm_compute. reflexivity.
  - reflexivity.
  - lia.
  - reflexivity.
Defined.

(** ** The INFO of an SV record *)

Lemma info_field_lookup_ne (infodict : gmap string pyval) (info info' : gmap string infoval)
    (field f : string) :
  info_field infodict info field = Ok info' -> f <> field -> info' !! f = info !! f.
Proof.
  unfold info_field. destruct (infodict !! field) as [res|]; [|by injection 1 as <-].
  intros H Hne. inv_bind H. injection H as <-. by apply lookup_insert_ne.
Qed.

Lemma info_field_lookup_None (infodict : gmap string pyval) (info info' : gmap string infoval)
    (field : string) :
  info_field infodict info field = Ok info' -> infodict !! field = None -> info' = info.
Proof. unfold info_field. intros H Hn. rewrite Hn in H. by injection H as <-. Qed.

(** A key missing from the dictionary is missing from the INFO. *)
Lemma infoString_lookup_None (output_ncallers : bool) (callers : list string)
    (infodict : gmap string pyval) (out : gmap string infoval) (f : string) :
  infoString output_ncallers callers infodict = Ok out ->
  f <> "Callers" -> f <> "NumCallers" -> infodict !! f = None -> out !! f = None.
Proof.
  unfold infoString. intros H Hc Hn Hf.
  apply bind_Ok in H as (i1 & H1 & H). apply bind_Ok in H as (i2 & H2 & H).
  injection H as <-. rewrite lookup_insert_ne by done.
  assert (Hi2 : i2 !! f = None).
  { destruct (decide (f = "SVLEN")) as [->|Hne2].
    - rewrite (info_field_lookup_None _ _ _ _ H2 Hf).
      by rewrite (info_field_lookup_ne _ _ _ _ _ H1).
    - rewrite (info_field_lookup_ne _ _ _ _ _ H2 Hne2).
      destruct (decide (f = "SVTYPE")) as [->|Hne1].
      + by rewrite (info_field_lookup_None _ _ _ _ H1 Hf).
      + by rewrite (info_field_lookup_ne _ _ _ _ _ H1 Hne1). }
  destruct output_ncallers; [by rewrite lookup_insert_ne|done].
Qed.

Lemma sized_svtype_spec (t : pyval) :
  sized_svtype t = true <-> exists s, t = VStr s /\ s ∈ ["DUP"; "DUP:TANDEM"; "DEL"; "INV"].
Proof.
  split.
  - destruct t; simpl; try discriminate. intros H%bool_decide_eq_true. eauto.
  - intros (s & -> & Hs). simpl. by apply bool_decide_eq_true.
Qed.

(** C6 (as stated, refuted): one DEL record with SVLEN 0 and representative
    positions 100 and 200.  The SVLEN median is 0, and the returned
    dictionary and the emitted INFO carry SVLEN all the same. *)
Lemma zero_svlen_median_reappears :
  let records := [rec_with [("SVTYPE", VStr "DEL"); ("SVLEN", VInt 0)]] in
  median_answer "SVLEN" records = Ok (Some (VInt 0))
  /\ (info ← make_info_dict records 100 200; Ok (info !! "SVLEN")) = Ok (Some (VInt 100))
  /\ (info ← make_info_dict records 100 200;
      out ← infoString false ["delly"] info; Ok (out !! "SVLEN")) = Ok (Some (IStr "100")).
Proof. vm_compute. repeat split; reflexivity. Qed.

(** C6 (amended): when the median of a tracked field equals 0 the loop
    stores nothing under that field.  CHR2, END and SVTYPE are then absent
    from the returned dictionary and from the emitted INFO.  SVLEN is
    absent unless SVTYPE resolved to DUP, DUP:TANDEM, DEL or INV, in which
    case it is set to [pos2 - pos1]. *)
Theorem zero_median_omitted (field : string) (records : list record) (pos1 pos2 : Z)
    (info : gmap string pyval) :
  field ∈ fields ->
  median_answer field records = Ok (Some (VInt 0)) ->
  make_info_dict records pos1 pos2 = Ok info ->
  (exists info0, info_loop fields records ∅ = Ok info0 /\ info0 !! field = None)
  /\ (field <> "SVLEN" ->
      info !! field = None
      /\ forall output_ncallers callers out,
           infoString output_ncallers callers info = Ok out -> out !! field = None)
  /\ (field = "SVLEN" ->
      info !! "SVLEN" =
        match info !! "SVTYPE" with
        | Some t => if sized_svtype t then Some (VInt (pos2 - pos1)) else None
        | None => None
        end).
Proof.
  intros Hf Hmed (info0 & Hloop & ->)%make_info_dict_Ok.
  assert (H0 : info0 !! field = None).
  { rewrite (info_loop_lookup _ _ _ _ field fields_NoDup Hloop).
    destruct (decide (field ∈ fields)); [|done].
    unfold stored. rewrite Hmed. simpl. apply lookup_empty. }
  split; [eauto|]. split.
  - intros Hne. rewrite synth_svlen_lookup_ne by done. split; [done|].
    intros onc callers out Hout.
    apply (infoString_lookup_None _ _ _ _ _ Hout).
    + intros ->. revert Hf. clear. unfold fields. rewrite !elem_of_cons, elem_of_nil.
      intuition discriminate.
    + intros ->. revert Hf. clear. unfold fields. rewrite !elem_of_cons, elem_of_nil.
      intuition discriminate.
    + by rewrite synth_svlen_lookup_ne.
  - intros ->. rewrite (synth_svlen_lookup_ne _ _ _ "SVTYPE") by done.
    unfold synth_svlen. destruct (info0 !! "SVTYPE") as [t|]; [|done].
    destruct (sized_svtype t); [|done].
    rewrite H0. apply lookup_insert_eq.
Qed.

Lemma zero_median_omitted_witness :
  let records := [rec_with [("SVTYPE", VStr "BND"); ("SVLEN", VStr "0"); ("END", VInt 0)]] in
  exists info,
    make_info_dict records 100 200 = Ok info
    /\ info !! "END" = None
    /\ info !! "SVLEN" = None.
Proof.
  intros records.
  destruct (make_info_dict records 100 200) as [info|e] eqn:Hinfo;
    [|vm_compute in Hinfo; discriminate].
  exists info. split; [reflexivity|]. split.
  - apply (zero_median_omitted "END" records 100 200 info).
    + apply list_elem_of_further, list_elem_of_here.
    + vm_compute. reflexivity.
    + exact Hinfo.
    + discriminate.
  - assert (Ht : info !! "SVTYPE" = Some (VStr "BND")).
    { revert Hinfo. vm_compute. by injection 1 as <-. }
    rewrite (proj2 (proj2 (zero_median_omitted "SVLEN" records 100 200 info
               (list_elem_of_further _ _ _ (list_elem_of_further _ _ _
                  (list_elem_of_further _ _ _ (list_elem_of_here _ _))))
               eq_refl Hinfo)) eq_refl).
    by rewrite Ht.
Defined.

(** C7: once the loop over the fields has built the dictionary, if it
    holds SVTYPE with one of the values DUP, DUP:TANDEM, DEL, INV and no
    SVLEN, [make_info_dict] adds SVLEN = [pos2 - pos1]; in every other
    case the dictionary is returned as the loop left it. *)
Theorem svlen_from_positions (records : list record) (pos1 pos2 : Z)
    (info0 : gmap string pyval) :
  info_loop fields records ∅ = Ok info0 ->
  let sized :=
    exists s, info0 !! "SVTYPE" = Some (VStr s)
              /\ s ∈ ["DUP"; "DUP:TANDEM"; "DEL"; "INV"] in
  exists info,
    make_info_dict records pos1 pos2 = Ok info
    /\ (sized /\ info0 !! "SVLEN" = None ->
        info = <["SVLEN" := VInt (pos2 - pos1)]> info0)
    /\ (~ (sized /\ info0 !! "SVLEN" = None) -> info = info0).
Proof.
  intros Hloop sized. exists (synth_svlen info0 pos1 pos2).
  split; [by apply make_info_dict_Ok; eauto|].
  unfold synth_svlen, sized. split.
  - intros [(s & -> & Hs) ->].
    by rewrite (proj2 (sized_svtype_spec (VStr s))) by eauto.
  - intros Hnot. destruct (info0 !! "SVTYPE") as [t|] eqn:Ht; [|done].
    destruct (sized_svtype t) eqn:Hsz; [|done].
    destruct (info0 !! "SVLEN") eqn:Hl; [done|].
    destruct Hnot. split; [|done].
    apply sized_svtype_spec in Hsz as (s & -> & Hs). eauto.
Qed.

Lemma svlen_from_positions_witness :
  let records := [rec_with [("SVTYPE", VStr "DEL"); ("END", VInt 2000)];
                  rec_with [("SVTYPE", VStr "DEL"); ("END", VInt 2004)]] in
  let info0 : gmap string pyval := <["SVTYPE" := VStr "DEL"]> (<["END" := VInt 2004]> ∅) in
  exists info,
    make_info_dict records 1000 2004 = Ok info
    /\ ((exists s, info0 !! "SVTYPE" = Some (VStr s)
                   /\ s ∈ ["DUP"; "DUP:TANDEM"; "DEL"; "INV"])
        /\ info0 !! "SVLEN" = None ->
        info = <["SVLEN" := VInt (2004 - 1000)]> info0)
    /\ (~ ((exists s, info0 !! "SVTYPE" = Some (VStr s)
                      /\ s ∈ ["DUP"; "DUP:TANDEM"; "DEL"; "INV"])
           /\ info0 !! "SVLEN" = None) -> info = info0).
Proof.
  intros records info0.
  apply (svlen_from_positions records 1000 2004 info0).
  vm_compute. reflexivity.
Defined.

Example make_info_dict_del :
  (info ← make_info_dict [rec_with [("SVTYPE", VStr "DEL"); ("END", VInt 2000)]] 1000 2000;
   Ok (info !! "CHR2", info !! "END", info !! "SVTYPE", info !! "SVLEN"))
  = Ok (None, Some (VInt 2000), Some (VStr "DEL"), Some (VInt 1000)).
Proof. vm_compute. reflexivity. Qed.

(** ** Breakpoint notation *)

Example bkpt_fwd :
  bkptRefAltFromPair (mkLocation (Some "1") 100 true false)
    (Some (mkLocation (Some "2") 250 true true)) "N" = Ok ("N", "N[2:250[").
Proof. vm_compute. reflexivity. Qed.

Example bkpt_unknown_mate :
  bkptRefAltFromPair (mkLocation (Some "1") 100 true true) None "N" = Ok ("N", ".N").
Proof. reflexivity. Qed.

Example bkpt_assertion :
  bkptRefAltFromPair (mkLocation (Some "1") 100 true false)
    (Some (mkLocation (Some "2") 250 false true)) "N" = Raise AssertionError.
Proof. reflexivity. Qed.

(** C3: with a known mate chromosome and the orientation precondition
    [loc2.strand == (loc1.isRightEnd != loc2.isRightEnd)], the function
    returns ref "N" and the alt made of "N" and the mate descriptor
    [<bracket><chrom>:<pos><bracket>], the bracket being "[" when loc2 is
    a right end and "]" otherwise, the descriptor after the ref exactly
    when loc1 is not a right end.  Without loc2, or without its
    chromosome, the descriptor is "." and nothing is required. *)
Theorem bkptRefAltFromPair_notation (loc1 loc2 : location) :
  (forall chrom2,
      __chrom__ loc2 = Some chrom2 ->
      __strand__ loc2 = xorb (__right__ loc1) (__right__ loc2) ->
      let bracket := if __right__ loc2 then "[" else "]" in
      let bkptstr := bracket +:+ chrom2 +:+ ":" +:+ fmt_d (__pos__ loc2) +:+ bracket in
      bkptRefAltFromPair loc1 (Some loc2) "N"
      = Ok ("N", if __right__ loc1 then bkptstr +:+ "N" else "N" +:+ bkptstr))
  /\ (__chrom__ loc2 = None ->
      bkptRefAltFromPair loc1 (Some loc2) "N"
      = Ok ("N", if __right__ loc1 then "." +:+ "N" else "N" +:+ "."))
  /\ bkptRefAltFromPair loc1 None "N"
     = Ok ("N", if __right__ loc1 then "." +:+ "N" else "N" +:+ ".").
Proof.
  unfold bkptRefAltFromPair. repeat split.
  - intros chrom2 -> ->. rewrite bool_decide_eq_true_2 by done.
    cbn [mbind result_bind]. by destruct (__right__ loc1).
  - intros ->. cbn [mbind result_bind]. by destruct (__right__ loc1).
  - cbn [mbind result_bind]. by destruct (__right__ loc1).
Qed.

Lemma bkptRefAltFromPair_notation_witness :
  bkptRefAltFromPair (mkLocation (Some "1") 1000 false true)
    (Some (mkLocation (Some "X") 2000 true false)) "N" = Ok ("N", "]X:2000]N")
  /\ bkptRefAltFromPair (mkLocation (Some "1") 1000 true false)
       (Some (mkLocation None 0 false false)) "N" = Ok ("N", "N.").
Proof.
  split.
  - apply (proj1 (bkptRefAltFromPair_notation (mkLocation (Some "1") 1000 false true)
                    (mkLocation (Some "X") 2000 true false)) "X"); reflexivity.
  - apply (proj1 (proj2 (bkptRefAltFromPair_notation (mkLocation (Some "1") 1000 true false)
                    (mkLocation None 0 false false)))); reflexivity.
Defined.

(** ** The chromosome filter *)

Example mapped_examples :
  map mapped_to_chromosome ["1"; "chr2"; "X"; "GL000220.1"; "MT"; "hs37d5"; "NC_007605"; "M"; "G"; ""]
  = [true; true; true; false; false; false; false; false; true; true].
Proof. reflexivity. Qed.

Lemma mapped_to_chromosome_false (chrom : string) :
  mapped_to_chromosome chrom = false <->
  String.prefix "GL" chrom = true \/ String.prefix "MT" chrom = true
  \/ String.prefix "hs" chrom = true \/ String.prefix "NC" chrom = true
  \/ String.prefix "M" chrom = true.
Proof.
  rewrite !String.prefix_correct. unfold mapped_to_chromosome, py_prefix.
  cbn [String.length].
  destruct (decide (substring 0 2 chrom ∈ ["GL"; "MT"; "hs"; "NC"])) as [Hin|Hnin].
  - rewrite (bool_decide_eq_true_2 _ Hin). cbn [orb]. split; [intros _|done].
    rewrite !elem_of_cons, elem_of_nil in Hin. tauto.
  - rewrite (bool_decide_eq_false_2 _ Hnin). cbn [orb].
    rewrite !elem_of_cons, elem_of_nil in Hnin.
    destruct (decide (substring 0 1 chrom = "M")) as [HM|HM].
    + rewrite (bool_decide_eq_true_2 _ HM). tauto.
    + rewrite (bool_decide_eq_false_2 _ HM). split; [done|]. tauto.
Qed.

(** C8: [mapped_to_chromosome] is false exactly on the names that start
    with GL, MT, hs, NC or M.  Hence a record on contig GL000220.1 is
    never handed to [addrecord] when [filterByChromosome] is set, and is
    handed to it when the flag is off (and the record passes the FILTER
    test that comes first). *)
Theorem chromosome_filter (calldict : Type)
    (addrecord : calldict -> record -> string -> bool -> calldict * option exn)
    (noFilter forceSV : bool) (program : string) :
  (forall chrom,
      mapped_to_chromosome chrom = false <->
      String.prefix "GL" chrom = true \/ String.prefix "MT" chrom = true
      \/ String.prefix "hs" chrom = true \/ String.prefix "NC" chrom = true
      \/ String.prefix "M" chrom = true)
  /\ (forall r rest d,
        rec_chrom r = "GL000220.1" ->
        ingested noFilter true r = false
        /\ ingest_records calldict addrecord noFilter true forceSV program (Yield r rest) d
           = ingest_records calldict addrecord noFilter true forceSV program rest d)
  /\ (forall r rest d,
        rec_chrom r = "GL000220.1" ->
        passed_variant noFilter r = true ->
        ingested noFilter false r = true
        /\ ingest_records calldict addrecord noFilter false forceSV program (Yield r rest) d
           = match addrecord d r program forceSV with
             | (d', None) =>
                 ingest_records calldict addrecord noFilter false forceSV program rest d'
             | (d', Some e) => (d', Some e)
             end).
Proof.
  split; [apply mapped_to_chromosome_false|]. split.
  - intros r rest d Hchrom.
    assert (H : ingested noFilter true r = false).
    { unfold ingested. rewrite Hchrom. by destruct (passed_variant noFilter r). }
    split; [done|]. cbn [ingest_records]. by rewrite H.
  - intros r rest d Hchrom Hpass.
    assert (H : ingested noFilter false r = true).
    { unfold ingested. by rewrite Hpass. }
    split; [done|]. cbn [ingest_records]. by rewrite H.
Qed.

Lemma chromosome_filter_witness :
  let r := mkRecord "GL000220.1" 500 "A" ["T"] ["PASS"] ∅ in
  ingest_records CallLog.calldict CallLog.addrecord false true false "mutect"
    (Yield r Done) [] = ([], None)
  /\ ingest_records CallLog.calldict CallLog.addrecord false false false "mutect"
       (Yield r Done) [] = ([(r, "mutect", false)], None).
Proof.
  intros r. split.
  - rewrite (proj2 (proj1 (proj2 (chromosome_filter CallLog.calldict CallLog.addrecord
                                    false false "mutect")) r Done [] eq_refl)).
    reflexivity.
  - rewrite (proj2 (proj2 (proj2 (chromosome_filter CallLog.calldict CallLog.addrecord
                                    false false "mutect")) r Done [] eq_refl eq_refl)).
    reflexivity.
Defined.

(** ** Emission *)

Example emit_sv_fields :
  (ls ← emit_variant true false true 2 (sv_example "1" ["delly"; "lumpy"; "delly"]);
   match ls with
   | [Line r] =>
       Ok (out_contig r, out_start r, out_ref r, out_alts r, out_filter r,
           out_info r !! "SVTYPE", out_info r !! "SVLEN", out_info r !! "NumCallers")
   | _ => Raise KeyError
   end)
  = Ok (Some "1", 1002, "N", ["N[1:2001["], ["."],
        Some (IStr "DEL"), Some (IStr "999"), Some (IInt 2)).
Proof. vm_compute. reflexivity. Qed.

(** C9: with [filterByChromosome] set, an SV cluster whose second location
    lies on a contig that is not mapped to a chromosome prints nothing;
    one whose second location is mapped is emitted as usual.  With the
    flag off the check is not made, and an SNV/indel cluster is emitted
    the same way whatever the flag. *)
Theorem sv_unmapped_mate_suppressed (output_ncallers debug : bool) (min_num_callers : Z)
    (loc1 loc2 : location) (callers : list string) (medianPos1 medianPos2 : Z)
    (recordscalled : list (string * record)) :
  let sv := SV loc1 (Some loc2) callers medianPos1 medianPos2 recordscalled in
  let body := emit_sv_body output_ncallers debug min_num_callers
                loc1 loc2 callers medianPos1 medianPos2 recordscalled in
  (forall chrom2,
      __chrom__ loc2 = Some chrom2 -> mapped_to_chromosome chrom2 = false ->
      emit_variant output_ncallers debug true min_num_callers sv = Ok []
      /\ forall vs,
           emit_all output_ncallers debug true min_num_callers (sv :: vs)
           = emit_all output_ncallers debug true min_num_callers vs)
  /\ (forall chrom2,
        __chrom__ loc2 = Some chrom2 -> mapped_to_chromosome chrom2 = true ->
        emit_variant output_ncallers debug true min_num_callers sv = body)
  /\ emit_variant output_ncallers debug false min_num_callers sv = body
  /\ (forall filterByChromosome loc allele,
        emit_variant output_ncallers debug filterByChromosome min_num_callers
          (SNV loc allele callers)
        = emit_variant output_ncallers debug false min_num_callers
            (SNV loc allele callers)).
Proof.
  intros sv body. repeat split.
  - unfold sv. cbn [emit_variant]. unfold mapped_loc. rewrite H, H0. reflexivity.
  - intros vs. cbn [emit_all]. unfold sv. cbn [emit_variant]. unfold mapped_loc.
    rewrite H, H0. cbn [mbind result_bind negb].
    by destruct (emit_all output_ncallers debug true min_num_callers vs).
  - intros chrom2 Hc Hm. unfold sv. cbn [emit_variant]. unfold mapped_loc.
    rewrite Hc, Hm. reflexivity.
Qed.

Lemma sv_unmapped_mate_suppressed_witness :
  emit_all false false true 0 [sv_example "GL000220.1" ["delly"]; sv_example "hs37d5" ["delly"]]
  = ([], None).
Proof.
  unfold sv_example. cbn [map].
  rewrite (proj2 (proj1 (sv_unmapped_mate_suppressed false false 0
                           (mkLocation (Some "1") 1000 true false)
                           (mkLocation (Some "GL000220.1") 2000 true true)
                           ["delly"] 1002 2001 _) "GL000220.1" eq_refl eq_refl)).
  rewrite (proj2 (proj1 (sv_unmapped_mate_suppressed false false 0
                           (mkLocation (Some "1") 1000 true false)
                           (mkLocation (Some "hs37d5") 2000 true true)
                           ["delly"] 1002 2001 _) "hs37d5" eq_refl eq_refl)).
  reflexivity.
Defined.

(** The emission-time check raises when the mate has no chromosome. *)
Example sv_no_mate_chromosome :
  emit_variant false false true 0
    (SV (mkLocation (Some "1") 1000 true false) (Some (mkLocation None 0 true true))
        ["delly"] 1000 0 []) = Raise TypeError.
Proof. reflexivity. Qed.

(** Every record of one cluster carries the filter computed from its
    callers. *)
Lemma emit_variant_filter (output_ncallers debug filterByChromosome : bool)
    (min_num_callers : Z) (v : variant) (ls : list outline) (r : vcfrec) :
  emit_variant output_ncallers debug filterByChromosome min_num_callers v = Ok ls ->
  Line r ∈ ls ->
  out_filter r = [filterstring min_num_callers (variant_callers v)].
Proof.
  destruct v as [loc allele callers|loc1 loc2 callers m1 m2 rc]; cbn [emit_variant].
  - injection 1 as <-. unfold emit_snv. destruct allele as [[a0 a1]|].
    + cbn. intros [Heq|[]%elem_of_nil]%elem_of_cons. by injection Heq as ->.
    + by intros ?%elem_of_nil.
  - destruct loc2 as [loc2|]; [|done]. intros H. inv_bind H.
    destruct a; [injection H as <-; by intros ?%elem_of_nil|].
    unfold emit_sv_body in H.
    apply bind_Ok in H as ([ref alt] & _ & H).
    apply bind_Ok in H as (infodict & _ & H).
    apply bind_Ok in H as (info & _ & H). injection H as <-.
    intros [Heq|Hin]%elem_of_cons; [by injection Heq as ->|].
    destruct debug; [|by apply elem_of_nil in Hin].
    apply list_elem_of_fmap in Hin as (? & ? & _). discriminate.
Qed.

(** What [merge] prints is what the loop prints for the clusters of some
    state of the variant map. *)
Lemma merge_lines (calldict : Type) (variantmap : Z -> Z -> calldict)
    (addrecord : calldict -> record -> string -> bool -> calldict * option exn)
    (sorted_calldict : calldict -> list variant) (VariantFile : string -> vcf_source)
    (filenames programs : list string) (forceSV : bool) (slop : Z)
    (output_ncallers : bool) (min_num_callers : Z)
    (filterByChromosome noFilter debug : bool) (l : outline) :
  l ∈ (merge calldict variantmap addrecord sorted_calldict VariantFile
         filenames programs forceSV slop output_ncallers min_num_callers
         filterByChromosome noFilter debug).1 ->
  exists d,
    l ∈ (emit_all output_ncallers debug filterByChromosome min_num_callers
           (sorted_calldict d)).1.
Proof.
  unfold merge.
  destruct (ingest_files _ _ _ _ _ _ _ _ _) as [d [e|]]; [by intros ?%elem_of_nil|].
  eauto.
Qed.

(** C5: every consensus record printed by the loop belongs to a cluster
    of the sorted sequence and carries LOWSUPPORT exactly when the number
    of distinct callers of that cluster is below [min_num_callers], and
    "." otherwise.  Two distinct callers give LOWSUPPORT under a minimum
    of 3 and "." under a minimum of 2. *)
Theorem lowsupport_filter (output_ncallers debug filterByChromosome : bool)
    (min_num_callers : Z) (vs : list variant) :
  (forall r,
      Line r ∈ (emit_all output_ncallers debug filterByChromosome min_num_callers vs).1 ->
      exists v,
        v ∈ vs
        /\ out_filter r =
             [if (Z.of_nat (size (caller_set (variant_callers v))) <? min_num_callers)%Z
              then "LOWSUPPORT" else "."])
  /\ (forall callers,
        size (caller_set callers) = 2%nat ->
        filterstring 3 callers = "LOWSUPPORT" /\ filterstring 2 callers = ".").
Proof.
  split.
  - induction vs as [|v vs IH]; intros r; cbn [emit_all].
    + by intros ?%elem_of_nil.
    + destruct (emit_variant output_ncallers debug filterByChromosome min_num_callers v)
        as [ls|e] eqn:Hv; [|by intros ?%elem_of_nil].
      destruct (emit_all output_ncallers debug filterByChromosome min_num_callers vs)
        as [rest e]. cbn [fst] in *.
      intros [Hin|Hin]%elem_of_app.
      * exists v. split; [by left|].
        rewrite (emit_variant_filter _ _ _ _ _ _ _ Hv Hin). unfold filterstring.
        cbn zeta. rewrite Z.leb_antisym.
        by destruct (Z.of_nat (size (caller_set (variant_callers v))) <? min_num_callers)%Z.
      * destruct (IH r Hin) as (v' & Hv' & Hf). exists v'. split; [by right|done].
  - intros callers Hsize. unfold filterstring. rewrite Hsize. by split.
Qed.

Lemma lowsupport_filter_witness :
  let snv := SNV (mkLocation (Some "1") 100 true false) (Some ("A", "T"))
               ["mutect"; "strelka"; "mutect"] in
  let r min := mkVcfrec (Some "1") 100 "A" ["T"] [filterstring min ["mutect"; "strelka"; "mutect"]]
                 (<["Callers" := IStr "mutect,strelka,mutect"]> ∅) in
  (Line (r 3) ∈ (emit_all false false true 3 [snv]).1 /\ out_filter (r 3) = ["LOWSUPPORT"])
  /\ (Line (r 2) ∈ (emit_all false false true 2 [snv]).1 /\ out_filter (r 2) = ["."]).
Proof.
  intros snv r.
  assert (H3 : Line (r 3) ∈ (emit_all false false true 3 [snv]).1)
    by apply list_elem_of_here.
  assert (H2 : Line (r 2) ∈ (emit_all false false true 2 [snv]).1)
    by apply list_elem_of_here.
  split; (split; [assumption|]).
  - destruct (proj1 (lowsupport_filter false false true 3 [snv]) (r 3) H3) as (v & Hv & Hf).
    apply elem_of_cons in Hv as [->|Hv]; [|by apply elem_of_nil in Hv].
    rewrite Hf. vm_compute. reflexivity.
  - destruct (proj1 (lowsupport_filter false false true 2 [snv]) (r 2) H2) as (v & Hv & Hf).
    apply elem_of_cons in Hv as [->|Hv]; [|by apply elem_of_nil in Hv].
    rewrite Hf. vm_compute. reflexivity.
Defined.

(** ** The caller summary *)

(** The SV path: the names joined under Callers are those of the cluster,
    each once, and NumCallers counts them. *)
Lemma infoString_callers (output_ncallers : bool) (callers : list string)
    (infodict : gmap string pyval) (out : gmap string infoval) :
  infoString output_ncallers callers infodict = Ok out ->
  exists names,
    out !! "Callers" = Some (IStr (String.concat "," names))
    /\ NoDup names
    /\ (forall c, c ∈ names <-> c ∈ callers)
    /\ (output_ncallers = true ->
        out !! "NumCallers" = Some (IInt (Z.of_nat (length names)))).
Proof.
  unfold infoString. intros H.
  apply bind_Ok in H as (i1 & _ & H). apply bind_Ok in H as (i2 & _ & H).
  injection H as <-. exists (elements (caller_set callers)).
  split; [apply lookup_insert_eq|]. split; [apply NoDup_elements|]. split.
  - intros c. unfold caller_set. by rewrite elem_of_elements, elem_of_list_to_set.
  - intros ->. rewrite lookup_insert_ne by done. apply lookup_insert_eq.
Qed.

(** The SNV/indel path joins the caller list as it is. *)
Lemma emit_snv_callers (output_ncallers : bool) (min_num_callers : Z) (loc : location)
    (allele : option (string * string)) (callers : list string) (r : vcfrec) :
  Line r ∈ emit_snv output_ncallers min_num_callers loc allele callers ->
  out_info r !! "Callers" = Some (IStr (String.concat "," callers)).
Proof.
  unfold emit_snv. destruct allele as [[a0 a1]|]; [|by intros ?%elem_of_nil].
  cbn. intros [Heq|[]%elem_of_nil]%elem_of_cons. injection Heq as ->. cbn.
  destruct output_ncallers; [rewrite lookup_insert_ne by done|]; apply lookup_insert_eq.
Qed.

(** C1 (fails on the SNV/indel path): a cluster whose caller list names
    mutect twice is emitted with NumCallers 1 and with mutect written
    twice under Callers. *)
Theorem snv_callers_repeated :
  let snv := SNV (mkLocation (Some "1") 100 true false) (Some ("A", "T"))
               ["mutect"; "mutect"] in
  exists r,
    emit_variant true false true 0 snv = Ok [Line r]
    /\ out_info r !! "NumCallers" = Some (IStr "1")
    /\ out_info r !! "Callers" = Some (IStr "mutect,mutect").
Proof. eexists. split; [reflexivity|]. vm_compute. split; reflexivity. Qed.

(** The same cluster on the SV path names mutect once. *)
Example sv_callers_once :
  (ls ← emit_variant true false true 0 (sv_example "2" ["mutect"; "mutect"]);
   match ls with
   | [Line r] => Ok (out_info r !! "NumCallers", out_info r !! "Callers")
   | _ => Raise KeyError
   end)
  = Ok (Some (IInt 1), Some (IStr "mutect")).
Proof. vm_compute. reflexivity. Qed.

(** ** Failing input files *)

(** C4 (as stated, refuted): [debug] is off, the first file raises
    [ValueError], and the run ends with that exception: the second file
    is never read and nothing is printed. *)
Lemma value_error_aborts_run :
  ingest_files CallLog.calldict CallLog.addrecord files false true false false
    [("invalid.vcf", "delly"); ("good.vcf", "lumpy")] []
  = ([], Some ValueError)
  /\ ingest_files CallLog.calldict CallLog.addrecord files false true false false
       [("truncated.vcf", "delly"); ("good.vcf", "lumpy")] []
     = ([(good_record, "delly", false)], Some ValueError)
  /\ ingest_files CallLog.calldict CallLog.addrecord files false true false false
       [("good.vcf", "lumpy")] []
     = ([(good_record, "lumpy", false)], None)
  /\ forall sorted_calldict,
       merge CallLog.calldict CallLog.variantmap CallLog.addrecord sorted_calldict files
         ["invalid.vcf"; "good.vcf"] ["delly"; "lumpy"] false 0 false 0 true false false
       = ([], Some ValueError).
Proof. repeat split. Qed.

(** C4 (amended): when reading a file or ingesting one of its records
    raises RuntimeError, TypeError, NameError or AttributeError, the run
    keeps what the file had contributed so far and goes on with the next
    files if [debug] is off, and ends with that exception if [debug] is
    on.  Any other exception ends the run whatever [debug] is. *)
Theorem file_failure_recovery (calldict : Type)
    (addrecord : calldict -> record -> string -> bool -> calldict * option exn)
    (VariantFile : string -> vcf_source)
    (noFilter filterByChromosome forceSV debug : bool)
    (infile program : string) (rest : list (string * string)) (d d' : calldict) (e : exn) :
  try_file calldict addrecord VariantFile noFilter filterByChromosome forceSV
    infile program d = (d', Some e) ->
  let run inputs d0 :=
    ingest_files calldict addrecord VariantFile noFilter filterByChromosome forceSV
      debug inputs d0 in
  (recovered e = true <-> e ∈ [RuntimeError; TypeError; NameError; AttributeError])
  /\ (recovered e = true -> debug = false -> run ((infile, program) :: rest) d = run rest d')
  /\ (recovered e = true -> debug = true ->
      run ((infile, program) :: rest) d = (d', Some e))
  /\ (recovered e = false -> run ((infile, program) :: rest) d = (d', Some e)).
Proof.
  intros Htry run. split.
  - rewrite !elem_of_cons, elem_of_nil. destruct e; cbn; intuition discriminate.
  - repeat split; intros Hrec; try intros ->; unfold run; cbn [ingest_files];
      unfold ingest_file; rewrite Htry, Hrec; reflexivity.
Qed.

Lemma file_failure_recovery_witness :
  ingest_files CallLog.calldict CallLog.addrecord files false true false false
    [("broken.vcf", "delly"); ("good.vcf", "lumpy")] []
  = ([(good_record, "delly", false); (good_record, "lumpy", false)], None)
  /\ ingest_files CallLog.calldict CallLog.addrecord files false true false true
       [("broken.vcf", "delly"); ("good.vcf", "lumpy")] []
     = ([(good_record, "delly", false)], Some TypeError).
Proof.
  split.
  - rewrite (proj1 (proj2 (file_failure_recovery CallLog.calldict CallLog.addrecord files
               false true false false "broken.vcf" "delly" [("good.vcf", "lumpy")]
               [] [(good_record, "delly", false)] TypeError eq_refl)) eq_refl eq_refl).
    reflexivity.
  - apply (proj1 (proj2 (proj2 (file_failure_recovery CallLog.calldict CallLog.addrecord files
               false true false true "broken.vcf" "delly" [("good.vcf", "lumpy")]
               [] [(good_record, "delly", false)] TypeError eq_refl))) eq_refl eq_refl).
Defined.

(** * Further properties *)

(** ** The order used by [sorted()] *)

Lemma ascii_compare_lt_trans (a b c : ascii) :
  Ascii.compare a b = Lt -> Ascii.compare b c = Lt -> Ascii.compare a c = Lt.
Proof.
  unfold Ascii.compare. rewrite !N.compare_lt_iff. apply N.lt_trans.
Qed.

Lemma string_compare_lt_trans (s1 s2 s3 : string) :
  String.compare s1 s2 = Lt -> String.compare s2 s3 = Lt -> String.compare s1 s3 = Lt.
Proof.
  revert s2 s3. induction s1 as [|a s1 IH]; intros [|b s2] [|c s3]; simpl; try done.
  destruct (Ascii.compare a b) eqn:Hab; try done;
    destruct (Ascii.compare b c) eqn:Hbc; try done.
  - apply Ascii.compare_eq_iff in Hab as ->. rewrite Hbc. apply IH.
  - apply Ascii.compare_eq_iff in Hab as ->. by rewrite Hbc.
  - apply Ascii.compare_eq_iff in Hbc as <-. by rewrite Hab.
  - by rewrite (ascii_compare_lt_trans _ _ _ Hab Hbc).
Qed.

Lemma string_ltb_false_trans (s1 s2 s3 : string) :
  String.ltb s2 s1 = false -> String.ltb s3 s2 = false -> String.ltb s3 s1 = false.
Proof.
  unfold String.ltb. intros H12 H23.
  destruct (String.compare s3 s1) eqn:H31; try done.
  destruct (String.compare s2 s1) eqn:H21; try done.
  - apply String.compare_eq_iff in H21 as ->. by rewrite H31 in H23.
  - rewrite String.compare_antisym in H21.
    destruct (String.compare s1 s2) eqn:H12'; try done.
    by rewrite (string_compare_lt_trans _ _ _ H31 H12') in H23.
Qed.

Global Instance py_le_trans : Transitive py_le.
Proof.
  intros a b c. unfold py_le.
  destruct a, b; simpl; try done; destruct c; simpl; try done;
    intros [= H1] [= H2]; f_equal.
  - apply Z.ltb_ge. apply Z.ltb_ge in H1, H2. lia.
  - by eapply string_ltb_false_trans.
Qed.

Global Instance py_le_antisym : AntiSymm (=) py_le.
Proof.
  intros a b. unfold py_le.
  destruct a, b; simpl; try done; intros [= H1] [= H2]; f_equal.
  - apply Z.ltb_ge in H1, H2. lia.
  - unfold String.ltb in *. rewrite String.compare_antisym in H1.
    destruct (String.compare s s0) eqn:Hc; try done.
    by apply String.compare_eq_iff.
Qed.

(** Two values the sort can compare are two ints or two strs. *)
Definition same_kind (a b : pyval) : Prop :=
  match a, b with
  | VInt _, VInt _ | VStr _, VStr _ => True
  | _, _ => False
  end.

Lemma py_le_same_kind (a b : pyval) : py_le a b -> same_kind a b.
Proof. unfold py_le. by destruct a, b. Qed.

Lemma same_kind_lt (a b : pyval) : same_kind a b -> exists c, py_lt a b = Ok c.
Proof. destruct a, b; simpl; try done; eauto. Qed.

Lemma same_kind_sym (a b : pyval) : same_kind a b -> same_kind b a.
Proof. by destruct a, b. Qed.

Lemma same_kind_trans (a b c : pyval) : same_kind a b -> same_kind b c -> same_kind a c.
Proof. by destruct a, b, c. Qed.

(** The only exception of the sort is [TypeError]. *)
Lemma insert_sorted_raises (x : pyval) (l : list pyval) (e : exn) :
  insert_sorted x l = Raise e -> e = TypeError.
Proof.
  induction l as [|y l IH]; simpl; [done|].
  destruct (py_lt y x) as [[]|e'] eqn:Hlt; simpl.
  - destruct (insert_sorted x l); simpl; [done|]. exact IH.
  - done.
  - intros [= <-]. destruct y, x; simpl in Hlt; congruence.
Qed.

Lemma sorted_from_raises (acc l : list pyval) (e : exn) :
  sorted_from acc l = Raise e -> e = TypeError.
Proof.
  revert acc. induction l as [|x l IH]; intros acc; simpl; [done|].
  destruct (insert_sorted x acc) as [acc'|e'] eqn:Hi; simpl; [apply IH|].
  intros [= <-]. by eapply insert_sorted_raises.
Qed.

(** Inserting succeeds when the new value is of the kind of the others. *)
Lemma insert_sorted_same_kind (x : pyval) (l : list pyval) :
  Forall (same_kind x) l -> exists s, insert_sorted x l = Ok s.
Proof.
  induction 1 as [|y l Hy _ [s IH]]; simpl; [eauto|].
  destruct (same_kind_lt y x (same_kind_sym _ _ Hy)) as [[] ->]; simpl; [|eauto].
  rewrite IH. simpl. eauto.
Qed.

Lemma sorted_from_same_kind (acc l : list pyval) :
  (forall a b, a ∈ (acc ++ l)%list -> b ∈ (acc ++ l)%list -> same_kind a b) ->
  exists s, sorted_from acc l = Ok s.
Proof.
  revert acc. induction l as [|x l IH]; intros acc Hk; simpl; [eauto|].
  destruct (insert_sorted_same_kind x acc) as [acc' Hacc'].
  { apply Forall_forall. intros y Hy.
    apply Hk; apply elem_of_app; [right; apply list_elem_of_here | by left]. }
  rewrite Hacc'. simpl. apply IH.
  assert (Hsub : forall a, a ∈ (acc' ++ l)%list -> a ∈ (acc ++ x :: l)%list).
  { intros a. rewrite !elem_of_app, (insert_sorted_perm _ _ _ Hacc'), !elem_of_cons. tauto. }
  intros a b Ha Hb. apply Hk; by apply Hsub.
Qed.

(** A sort of two values or more succeeds only on values of one kind. *)
Lemma py_sorted_Ok_same_kind (l s : list pyval) (a b : pyval) :
  py_sorted l = Ok s -> (2 <= length l)%nat -> a ∈ l -> b ∈ l -> same_kind a b.
Proof.
  intros Hs Hlen Ha Hb.
  pose proof (Sorted_StronglySorted py_le s (py_sorted_sorted _ _ Hs)) as Hss.
  rewrite <- (py_sorted_length _ _ Hs) in Hlen.
  rewrite <- (py_sorted_perm _ _ Hs) in Ha, Hb. clear Hs.
  destruct s as [|x [|y s]]; simpl in Hlen; [lia|lia|].
  apply StronglySorted_inv in Hss as [_ Hx]. rewrite Forall_forall in Hx.
  assert (Hall : forall z, z ∈ x :: y :: s -> same_kind x z).
  { intros z Hz. apply elem_of_cons in Hz as [Hz|Hz]; [subst z|by apply py_le_same_kind, Hx].
    pose proof (py_le_same_kind _ _ (Hx y (list_elem_of_here _ _))) as Hxy.
    by destruct x, y. }
  eapply same_kind_trans; [apply same_kind_sym|]; by apply Hall.
Qed.

(** The sorted list does not depend on the order of the input. *)
Lemma py_sorted_permutation (l l' s : list pyval) :
  l ≡ₚ l' -> py_sorted l = Ok s -> py_sorted l' = Ok s.
Proof.
  intros Hp Hs.
  destruct (py_sorted l') as [s'|e] eqn:Hs'.
  - f_equal. apply (Sorted_unique py_le).
    + by eapply py_sorted_sorted.
    + by eapply py_sorted_sorted.
    + by rewrite (py_sorted_perm _ _ Hs), (py_sorted_perm _ _ Hs').
  - exfalso. unfold py_sorted in Hs'.
    destruct l' as [|x [|y l'']]; [done|done|].
    destruct (sorted_from_same_kind [] (x :: y :: l'')) as [s' Hs''].
    + intros a b Ha Hb. rewrite app_nil_l, <- Hp in Ha, Hb.
      apply (py_sorted_Ok_same_kind l s a b); try done.
      rewrite Hp. simpl. lia.
    + by rewrite Hs'' in Hs'.
Qed.

(** ** The answers of one field, without the accumulator *)

Lemma answers_of_acc (field : string) (records : list record) (acc : list pyval) :
  answers_of field records acc
  = (rest ← answers_of field records []; Ok (acc ++ rest)%list).
Proof.
  revert acc. induction records as [|r records IH]; intros acc; simpl.
  - by rewrite app_nil_r.
  - destruct (rec_info r !! field) as [v|]; [|apply IH].
    destruct (int_if_possible v) as [a|e]; simpl; [|done].
    rewrite (IH (acc ++ [a])%list), (IH [a]).
    destruct (answers_of field records []) as [rest|e]; simpl; [|done].
    by rewrite <- app_assoc.
Qed.

Lemma answers_of_cons (field : string) (r : record) (records : list record) :
  answers_of field (r :: records) []
  = match rec_info r !! field with
    | Some v =>
        a ← int_if_possible v; rest ← answers_of field records []; Ok (a :: rest)
    | None => answers_of field records []
    end.
Proof.
  simpl. destruct (rec_info r !! field) as [v|]; [|done].
  destruct (int_if_possible v) as [a|e]; simpl; [|done].
  by rewrite answers_of_acc.
Qed.

(** An answer is the conversion of the field of some record, and every
    such conversion is an answer. *)
Lemma answers_of_elem (field : string) (records : list record) (answers : list pyval)
    (a : pyval) :
  answers_of field records [] = Ok answers ->
  a ∈ answers <->
  exists r raw, r ∈ records /\ rec_info r !! field = Some raw /\ int_if_possible raw = Ok a.
Proof.
  revert answers. induction records as [|r records IH]; intros answers.
  - intros [= <-]. split; [by intros ?%elem_of_nil|].
    by intros (r & raw & ?%elem_of_nil & _).
  - rewrite answers_of_cons.
    destruct (rec_info r !! field) as [v|] eqn:Hv.
    + destruct (int_if_possible v) as [a0|e] eqn:Ha0; simpl; [|done].
      destruct (answers_of field records []) as [rest|e]; simpl; [|done].
      intros [= <-]. rewrite elem_of_cons, (IH rest eq_refl). split.
      * intros [->|(r' & raw & Hr' & Hraw & Hconv)].
        -- exists r, v. split; [by left|done].
        -- exists r', raw. split; [by right|done].
      * intros (r' & raw & [->|Hr']%elem_of_cons & Hraw & Hconv).
        -- left. congruence.
        -- right. eauto.
    + intros Hans. rewrite (IH answers Hans). split.
      * intros (r' & raw & Hr' & Hraw & Hconv). exists r', raw. split; [by right|done].
      * intros (r' & raw & [->|Hr']%elem_of_cons & Hraw & Hconv); [congruence|eauto].
Qed.

Lemma answers_of_permutation (field : string) (records records' : list record)
    (answers : list pyval) :
  records ≡ₚ records' ->
  answers_of field records [] = Ok answers ->
  exists answers', answers_of field records' [] = Ok answers' /\ answers ≡ₚ answers'.
Proof.
  intros Hp. revert answers.
  induction Hp as [|r l l' Hp IH|r1 r2 l|l1 l2 l3 Hp1 IH1 Hp2 IH2]; intros answers.
  - eauto.
  - rewrite !answers_of_cons.
    destruct (rec_info r !! field) as [v|]; [|apply IH].
    destruct (int_if_possible v) as [a|e]; simpl; [|done].
    destruct (answers_of field l []) as [rest|e]; simpl; [|done].
    intros [= <-]. destruct (IH rest eq_refl) as (rest' & -> & Hrest). simpl.
    exists (a :: rest'). by rewrite Hrest.
  - rewrite !answers_of_cons.
    destruct (rec_info r1 !! field) as [v1|], (rec_info r2 !! field) as [v2|];
      try destruct (int_if_possible v1) as [a1|e1];
      try destruct (int_if_possible v2) as [a2|e2]; simpl; try done;
      destruct (answers_of field l []) as [rest|e]; simpl; try done;
      intros [= <-]; eexists; (split; [reflexivity|]); try done.
    apply Permutation_swap.
  - intros H1. destruct (IH1 _ H1) as (a2 & H2 & Hp12).
    destruct (IH2 _ H2) as (a3 & H3 & Hp23).
    exists a3. split; [done|]. by rewrite Hp12.
Qed.

Lemma median_answer_permutation (field : string) (records records' : list record)
    (m : option pyval) :
  records ≡ₚ records' ->
  median_answer field records = Ok m -> median_answer field records' = Ok m.
Proof.
  intros Hp. unfold median_answer. intros H.
  apply bind_Ok in H as (answers & Hans & H).
  destruct (answers_of_permutation _ _ _ _ Hp Hans) as (answers' & -> & Hpa).
  cbn [mbind result_bind]. rewrite <- (Permutation_length Hpa).
  destruct (0 <? length answers)%nat; [|done].
  apply bind_Ok in H as (s & Hs & H).
  by rewrite (py_sorted_permutation _ _ _ Hpa Hs).
Qed.

Lemma info_loop_permutation (fs : list string) (records records' : list record)
    (info0 info : gmap string pyval) :
  records ≡ₚ records' ->
  info_loop fs records info0 = Ok info -> info_loop fs records' info0 = Ok info.
Proof.
  intros Hp. revert info0. induction fs as [|f fs IH]; intros info0; simpl; [done|].
  intros H. apply bind_Ok in H as (info1 & Hstep & H).
  assert (Hstep' : info_step records' info0 f = Ok info1).
  { unfold info_step in *. apply bind_Ok in Hstep as (m & Hm & Hstep).
    by rewrite (median_answer_permutation _ _ _ _ Hp Hm). }
  rewrite Hstep'. simpl. by apply IH.
Qed.

(** When no record carries the field there is no median. *)
Lemma median_answer_absent (field : string) (records : list record) :
  (forall r, r ∈ records -> rec_info r !! field = None) ->
  median_answer field records = Ok None.
Proof.
  intros Habs. apply median_answer_none.
  induction records as [|r records IH]; [done|].
  rewrite answers_of_cons, (Habs r) by (by left).
  apply IH. intros r' Hr'. apply Habs. by right.
Qed.

(** The value kept for a field comes from a record, and is not 0. *)
Lemma stored_from_record (records : list record) (field : string) (v : pyval) :
  stored records field None = Some v ->
  v <> VInt 0
  /\ exists r raw,
       r ∈ records /\ rec_info r !! field = Some raw /\ int_if_possible raw = Ok v.
Proof.
  unfold stored, median_answer.
  destruct (answers_of field records []) as [answers|] eqn:Hans; [|done].
  cbn [mbind result_bind]. destruct (0 <? length answers)%nat; [|done].
  destruct (py_sorted answers) as [s|] eqn:Hs; [|done]. cbn [mbind result_bind].
  destruct (s !! (length answers / 2)%nat) as [m|] eqn:Hm; [|done].
  destruct (py_eq_zero m) eqn:Hz; [done|]. intros [= <-]. split.
  - intros ->. done.
  - apply (answers_of_elem _ _ _ m Hans).
    rewrite <- (py_sorted_perm _ _ Hs). by eapply list_elem_of_lookup_2.
Qed.

Lemma info_loop_fields (records : list record) (info0 : gmap string pyval) (f : string) :
  info_loop fields records ∅ = Ok info0 ->
  info0 !! f = if decide (f ∈ fields) then stored records f None else None.
Proof.
  intros Hloop. rewrite (info_loop_lookup _ _ _ _ f fields_NoDup Hloop).
  by rewrite lookup_empty.
Qed.

(** ** More on [int_if_possible] and [make_info_dict] *)

(** X1: converting a converted value changes nothing: after
    [int_if_possible] has returned [r], [int_if_possible r] returns [r]. *)
Theorem int_if_possible_idempotent (val r : pyval) :
  int_if_possible val = Ok r -> int_if_possible r = Ok r.
Proof.
  unfold int_if_possible. intros H. apply bind_Ok in H as (v & Hv & H).
  destruct (py_int v) as [i|e] eqn:Hi.
  - by injection H as <-.
  - destruct e; try done. injection H as <-.
    apply py_int_ValueError in Hi as Hs. destruct Hs as [s ->].
    cbn [unwrap_list mbind result_bind]. by rewrite Hi.
Qed.

Lemma int_if_possible_idempotent_witness :
  int_if_possible (VInt 1000) = Ok (VInt 1000)
  /\ int_if_possible (VStr "DUP:TANDEM") = Ok (VStr "DUP:TANDEM").
Proof.
  split.
  - apply (int_if_possible_idempotent (VList [VStr "1_000"; VNone])). reflexivity.
  - apply (int_if_possible_idempotent (VList [VStr "DUP:TANDEM"])). reflexivity.
Defined.

(** X2: when no record carries any of CHR2, END, SVTYPE, SVLEN (in
    particular when there is no record) the dictionary is empty, whatever
    else the records carry and whatever the positions. *)
Theorem make_info_dict_no_fields (records : list record) (pos1 pos2 : Z) :
  (forall r field, r ∈ records -> field ∈ fields -> rec_info r !! field = None) ->
  make_info_dict records pos1 pos2 = Ok ∅.
Proof.
  intros Habs. apply make_info_dict_Ok. exists ∅. split; [|done].
  generalize (∅ : gmap string pyval). revert Habs. generalize fields.
  intros fs Habs. induction fs as [|f fs IH]; intros info; [done|].
  cbn [info_loop]. unfold info_step. rewrite median_answer_absent.
  - cbn [mbind result_bind]. apply IH. intros r g Hr Hg. apply Habs; [done|by right].
  - intros r Hr. apply Habs; [done|by left].
Qed.

Lemma make_info_dict_no_fields_witness :
  make_info_dict [] 1000 2000 = Ok ∅
  /\ make_info_dict [rec_with [("IMPRECISE", VNone); ("CIPOS", VTuple [VInt 0; VInt 5])]]
       1000 2000 = Ok ∅.
Proof.
  split.
  - apply make_info_dict_no_fields. intros r field Hr. by apply elem_of_nil in Hr.
  - apply make_info_dict_no_fields. intros r field Hr Hf.
    apply elem_of_cons in Hr as [->|Hr]; [|by apply elem_of_nil in Hr].
    unfold fields in Hf. rewrite !elem_of_cons, elem_of_nil in Hf.
    destruct Hf as [->|[->|[->|[->|[]]]]]; vm_compute; reflexivity.
Defined.

(** X3: the dictionary has no key besides CHR2, END, SVTYPE and SVLEN. *)
Theorem make_info_dict_keys (records : list record) (pos1 pos2 : Z)
    (info : gmap string pyval) (f : string) :
  make_info_dict records pos1 pos2 = Ok info -> is_Some (info !! f) -> f ∈ fields.
Proof.
  intros (info0 & Hloop & ->)%make_info_dict_Ok.
  destruct (decide (f = "SVLEN")) as [->|Hne].
  - intros _. unfold fields. rewrite !elem_of_cons. auto 10.
  - rewrite synth_svlen_lookup_ne by done. rewrite (info_loop_fields _ _ _ Hloop).
    destruct (decide (f ∈ fields)); [done|]. by intros [? ?].
Qed.

Lemma make_info_dict_keys_witness :
  let records := [rec_with [("SVTYPE", VStr "DEL"); ("CIPOS", VInt 3)]] in
  exists info,
    make_info_dict records 1 9 = Ok info
    /\ info !! "SVLEN" = Some (VInt 8) /\ info !! "CIPOS" = None /\ "SVLEN" ∈ fields.
Proof.
  intros records.
  destruct (make_info_dict records 1 9) as [info|e] eqn:Hinfo;
    [|vm_compute in Hinfo; discriminate].
  assert (Hl : info !! "SVLEN" = Some (VInt 8) /\ info !! "CIPOS" = None).
  { revert Hinfo. vm_compute. by intros [= <-]. }
  exists info. split; [reflexivity|]. split; [apply Hl|]. split; [apply Hl|].
  apply (make_info_dict_keys records 1 9 info "SVLEN" Hinfo).
  rewrite (proj1 Hl). eauto.
Defined.

(** X4: every value of the dictionary is the conversion of that field in
    one of the records, and is not 0; the only exception is an SVLEN equal
    to [pos2 - pos1], set when SVTYPE is DUP, DUP:TANDEM, DEL or INV.  A
    consensus value is never an average or a value no caller reported. *)
Theorem make_info_dict_values (records : list record) (pos1 pos2 : Z)
    (info : gmap string pyval) (f : string) (v : pyval) :
  make_info_dict records pos1 pos2 = Ok info ->
  info !! f = Some v ->
  (v <> VInt 0
   /\ exists r raw,
        r ∈ records /\ rec_info r !! f = Some raw /\ int_if_possible raw = Ok v)
  \/ (f = "SVLEN" /\ v = VInt (pos2 - pos1)
      /\ exists t, info !! "SVTYPE" = Some (VStr t)
                   /\ t ∈ ["DUP"; "DUP:TANDEM"; "DEL"; "INV"]).
Proof.
  intros (info0 & Hloop & ->)%make_info_dict_Ok.
  assert (H0 : forall g w, info0 !! g = Some w ->
             w <> VInt 0
             /\ exists r raw,
                  r ∈ records /\ rec_info r !! g = Some raw /\ int_if_possible raw = Ok w).
  { intros g w. rewrite (info_loop_fields _ _ _ Hloop).
    destruct (decide (g ∈ fields)); [apply stored_from_record|done]. }
  rewrite (synth_svlen_lookup_ne _ _ _ "SVTYPE") by done.
  unfold synth_svlen.
  destruct (info0 !! "SVTYPE") as [t|] eqn:Ht; [|left; by apply H0].
  destruct (sized_svtype t) eqn:Hsz; [|left; by apply H0].
  destruct (info0 !! "SVLEN") eqn:Hl; [left; by apply H0|].
  destruct (decide (f = "SVLEN")) as [->|Hne].
  - rewrite lookup_insert_eq. intros [= <-]. right.
    apply sized_svtype_spec in Hsz as (s & -> & Hs). eauto.
  - rewrite lookup_insert_ne by done. left. by apply H0.
Qed.

Lemma make_info_dict_values_witness :
  let r1 := rec_with [("SVTYPE", VStr "DEL"); ("END", VStr "2000")] in
  let r2 := rec_with [("SVTYPE", VStr "DEL"); ("END", VInt 2010)] in
  exists info,
    make_info_dict [r1; r2] 1000 2005 = Ok info
    /\ info !! "END" = Some (VInt 2010)
    /\ exists r raw,
         r ∈ [r1; r2] /\ rec_info r !! "END" = Some raw
         /\ int_if_possible raw = Ok (VInt 2010).
Proof.
  intros r1 r2.
  destruct (make_info_dict [r1; r2] 1000 2005) as [info|e] eqn:Hinfo;
    [|vm_compute in Hinfo; discriminate].
  assert (Hl : info !! "END" = Some (VInt 2010)).
  { revert Hinfo. vm_compute. by intros [= <-]. }
  exists info. split; [reflexivity|]. split; [exact Hl|].
  destruct (make_info_dict_values [r1; r2] 1000 2005 info "END" (VInt 2010) Hinfo Hl)
    as [[_ H]|[H _]]; [exact H|discriminate].
Defined.

(** X5: the dictionary does not depend on the order of the records. *)
Theorem make_info_dict_permutation (records records' : list record) (pos1 pos2 : Z)
    (info : gmap string pyval) :
  records ≡ₚ records' ->
  make_info_dict records pos1 pos2 = Ok info ->
  make_info_dict records' pos1 pos2 = Ok info.
Proof.
  intros Hp (info0 & Hloop & ->)%make_info_dict_Ok.
  apply make_info_dict_Ok. exists info0. split; [|done].
  by apply (info_loop_permutation _ _ _ _ _ Hp).
Qed.

Lemma make_info_dict_permutation_witness :
  let r1 := rec_with [("SVTYPE", VStr "DEL"); ("END", VInt 2000)] in
  let r2 := rec_with [("SVTYPE", VStr "DUP"); ("END", VInt 2010)] in
  let r3 := rec_with [("SVTYPE", VStr "DEL"); ("END", VInt 1990)] in
  make_info_dict [r3; r1; r2] 1000 2000 = make_info_dict [r1; r2; r3] 1000 2000.
Proof.
  intros r1 r2 r3.
  destruct (make_info_dict [r1; r2; r3] 1000 2000) as [info|e] eqn:Hinfo;
    [|vm_compute in Hinfo; discriminate].
  apply (make_info_dict_permutation [r1; r2; r3] [r3; r1; r2] 1000 2000 info); [|exact Hinfo].
  change [r3; r1; r2] with ([r3] ++ [r1; r2])%list.
  change [r1; r2; r3] with ([r1; r2] ++ [r3])%list.
  apply Permutation_app_comm.
Defined.

(** X6: when one record gives a field an integer value and another gives
    it a text that is not an integer, sorting the answers raises
    [TypeError]: the median of the field is not computed and
    [make_info_dict] raises. *)
Theorem median_answer_mixed_kinds (field : string) (records : list record)
    (r1 r2 : record) (raw1 raw2 : pyval) (z : Z) (t : string) :
  r1 ∈ records -> r2 ∈ records ->
  rec_info r1 !! field = Some raw1 -> int_if_possible raw1 = Ok (VInt z) ->
  rec_info r2 !! field = Some raw2 -> int_if_possible raw2 = Ok (VStr t) ->
  (exists e, median_answer field records = Raise e)
  /\ (forall answers,
        answers_of field records [] = Ok answers ->
        median_answer field records = Raise TypeError)
  /\ (field ∈ fields ->
      forall pos1 pos2, exists e, make_info_dict records pos1 pos2 = Raise e).
Proof.
  intros Hr1 Hr2 Hraw1 Hc1 Hraw2 Hc2.
  assert (Hmixed : forall answers,
            answers_of field records [] = Ok answers ->
            median_answer field records = Raise TypeError).
  { intros answers Hans.
    assert (Hz : VInt z ∈ answers) by (apply (answers_of_elem _ _ _ _ Hans); eauto).
    assert (Ht : VStr t ∈ answers) by (apply (answers_of_elem _ _ _ _ Hans); eauto).
    assert (Hlen : (2 <= length answers)%nat).
    { destruct answers as [|x [|y l]]; simpl; [by apply elem_of_nil in Hz| |lia].
      apply elem_of_cons in Hz as [<-|Hz]; [|by apply elem_of_nil in Hz].
      apply elem_of_cons in Ht as [Ht|Ht]; [done|by apply elem_of_nil in Ht]. }
    unfold median_answer. rewrite Hans. cbn [mbind result_bind].
    destruct (Nat.ltb_spec 0 (length answers)) as [_|]; [|lia].
    destruct (py_sorted answers) as [s|e] eqn:Hs.
    - by destruct (py_sorted_Ok_same_kind _ _ _ _ Hs Hlen Hz Ht).
    - cbn [mbind result_bind]. f_equal. by apply sorted_from_raises in Hs. }
  assert (Hraise : exists e, median_answer field records = Raise e).
  { destruct (answers_of field records []) as [answers|e] eqn:Hans; [eauto|].
    exists e. unfold median_answer. by rewrite Hans. }
  split; [done|]. split; [done|].
  intros Hf pos1 pos2. destruct Hraise as [e He].
  destruct (info_loop_raises fields records ∅ field e Hf He) as [e' He'].
  exists e'. unfold make_info_dict. by rewrite He'.
Qed.

Lemma median_answer_mixed_kinds_witness :
  let r1 := rec_with [("SVLEN", VInt 300)] in
  let r2 := rec_with [("SVLEN", VStr "unknown")] in
  median_answer "SVLEN" [r1; r2] = Raise TypeError
  /\ exists e, make_info_dict [r1; r2] 1000 1300 = Raise e.
Proof.
  intros r1 r2.
  pose proof (median_answer_mixed_kinds "SVLEN" [r1; r2] r1 r2 (VInt 300) (VStr "unknown")
                300 "unknown" (list_elem_of_here _ _)
                (list_elem_of_further _ _ _ (list_elem_of_here _ _))
                eq_refl eq_refl eq_refl eq_refl) as (_ & Hmed & Hdict).
  split.
  - apply (Hmed [VInt 300; VStr "unknown"]). reflexivity.
  - apply Hdict. do 3 apply list_elem_of_further. apply list_elem_of_here.
Defined.

(** X7: for an odd number [2k+1] of answers the consensus value is the
    true median: it sits at index [k] of the sorted list, with [k] answers
    that are not larger before it and [k] that are not smaller after it. *)
Theorem median_answer_odd_middle (field : string) (records : list record)
    (answers s : list pyval) (k : nat) :
  answers_of field records [] = Ok answers ->
  length answers = (2 * k + 1)%nat ->
  py_sorted answers = Ok s ->
  exists m,
    median_answer field records = Ok (Some m)
    /\ s = (take k s ++ m :: drop (S k) s)%list
    /\ length (take k s) = k /\ length (drop (S k) s) = k
    /\ Forall (fun x => py_le x m) (take k s)
    /\ Forall (py_le m) (drop (S k) s).
Proof.
  intros Hans Hlen Hs.
  destruct (median_answer_index field records answers s Hans) as (m & Hm & Hmed);
    [lia | done |].
  assert (Hdiv : (length answers / 2)%nat = k).
  { rewrite Hlen. symmetry. apply (Nat.div_unique _ 2 k 1); lia. }
  rewrite Hdiv in Hm. pose proof (py_sorted_length _ _ Hs) as Hls.
  pose proof (take_drop_middle s k m Hm) as Hsplit.
  pose proof (Sorted_StronglySorted py_le s (py_sorted_sorted _ _ Hs)) as Hss.
  rewrite <- Hsplit in Hss.
  exists m. split; [done|]. split; [done|].
  split; [rewrite length_take; lia|]. split; [rewrite length_drop; lia|]. split.
  - apply Forall_forall. intros x Hx.
    apply (StronglySorted_app_1_elem_of py_le _ _ x m Hss Hx). by left.
  - apply StronglySorted_app_1_r in Hss. by apply StronglySorted_inv in Hss as [_ ?].
Qed.

Lemma median_answer_odd_middle_witness :
  let records := [rec_with [("END", VInt 2010)]; rec_with [("END", VInt 1990)];
                  rec_with [("END", VStr "2000")]] in
  exists m,
    median_answer "END" records = Ok (Some m)
    /\ [VInt 1990; VInt 2000; VInt 2010] = ([VInt 1990] ++ m :: [VInt 2010])%list.
Proof.
  intros records.
  destruct (median_answer_odd_middle "END" records [VInt 2010; VInt 1990; VInt 2000]
              [VInt 1990; VInt 2000; VInt 2010] 1 eq_refl eq_refl eq_refl)
    as (m & Hmed & Hsplit & _).
  exists m. split; [exact Hmed | exact Hsplit].
Defined.

(** X8: the two positions are used for nothing but a missing SVLEN: with
    other positions the function returns the same CHR2, END and SVTYPE,
    and an SVLEN whose median over the records is not 0 is returned as it
    is. *)
Theorem make_info_dict_positions (records : list record) (pos1 pos2 pos1' pos2' : Z)
    (info : gmap string pyval) :
  make_info_dict records pos1 pos2 = Ok info ->
  exists info',
    make_info_dict records pos1' pos2' = Ok info'
    /\ (forall f, f <> "SVLEN" -> info' !! f = info !! f)
    /\ (forall m, median_answer "SVLEN" records = Ok (Some m) -> m <> VInt 0 ->
          info !! "SVLEN" = Some m /\ info' !! "SVLEN" = Some m).
Proof.
  intros (info0 & Hloop & ->)%make_info_dict_Ok.
  exists (synth_svlen info0 pos1' pos2'). split; [apply make_info_dict_Ok; eauto|]. split.
  - intros f Hne. by rewrite !synth_svlen_lookup_ne.
  - intros m Hmed Hm.
    assert (H0 : info0 !! "SVLEN" = Some m).
    { rewrite (info_loop_fields _ _ _ Hloop).
      destruct (decide ("SVLEN" ∈ fields)) as [_|[]]; [|compute_done].
      unfold stored. rewrite Hmed.
      destruct m as [z| | | |]; simpl; try done.
      destruct (Z.eqb_spec z 0) as [->|]; done. }
    unfold synth_svlen. rewrite H0.
    destruct (info0 !! "SVTYPE") as [t|]; [|done]. by destruct (sized_svtype t).
Qed.

Lemma make_info_dict_positions_witness :
  let records := [rec_with [("SVTYPE", VStr "DEL"); ("SVLEN", VInt (-250))]] in
  exists info info',
    make_info_dict records 1000 1250 = Ok info
    /\ make_info_dict records 0 7 = Ok info'
    /\ info !! "SVLEN" = Some (VInt (-250)) /\ info' !! "SVLEN" = Some (VInt (-250)).
Proof.
  intros records.
  destruct (make_info_dict records 1000 1250) as [info|e] eqn:Hinfo;
    [|vm_compute in Hinfo; discriminate].
  destruct (make_info_dict_positions records 1000 1250 0 7 info Hinfo)
    as (info' & Hinfo' & _ & Hlen).
  exists info, info'. split; [reflexivity|]. split; [exact Hinfo'|].
  apply (Hlen (VInt (-250))); [reflexivity | discriminate].
Defined.

(** ** More on the breakpoint notation *)

Lemma string_length_app (s1 s2 : string) :
  String.length (s1 +:+ s2) = (String.length s1 + String.length s2)%nat.
Proof. induction s1 as [|c s1 IH]; simpl; [done|]. by rewrite IH. Qed.

(** X9: the only exception [bkptRefAltFromPair] raises is the
    [AssertionError] of the orientation check, and it raises it exactly
    when the mate has a chromosome and its strand differs from
    [loc1.right != loc2.right]. *)
Theorem bkptRefAltFromPair_assertion (loc1 : location) (loc2 : option location)
    (refstr : string) :
  (bkptRefAltFromPair loc1 loc2 refstr = Raise AssertionError <->
   exists l2 chrom2,
     loc2 = Some l2 /\ __chrom__ l2 = Some chrom2
     /\ __strand__ l2 <> xorb (__right__ loc1) (__right__ l2))
  /\ (forall e, bkptRefAltFromPair loc1 loc2 refstr = Raise e -> e = AssertionError).
Proof.
  unfold bkptRefAltFromPair.
  destruct loc2 as [l2|]; [destruct (__chrom__ l2) as [chrom2|] eqn:Hc|].
  - destruct (decide (__strand__ l2 = xorb (__right__ loc1) (__right__ l2))) as [Heq|Hne].
    + rewrite (bool_decide_eq_true_2 _ Heq). cbn [mbind result_bind]. split; [|done].
      split; [done|]. intros (l & c & [= <-] & _ & Hne). done.
    + rewrite (bool_decide_eq_false_2 _ Hne). cbn [mbind result_bind].
      split; [|by intros e [= <-]]. split; [|done]. intros _. eauto.
  - cbn [mbind result_bind]. split; [|done]. split; [done|].
    intros (l & c & [= <-] & Hc' & _). congruence.
  - cbn [mbind result_bind]. split; [|done]. split; [done|].
    by intros (l & c & [=] & _).
Qed.

(** X10: when [bkptRefAltFromPair] returns, the ref is the [refstr] it
    was given and the alt is strictly longer than the ref: a breakpoint
    record never has an alt equal to its ref. *)
Theorem bkptRefAltFromPair_alt_longer (loc1 : location) (loc2 : option location)
    (refstr ref alt : string) :
  bkptRefAltFromPair loc1 loc2 refstr = Ok (ref, alt) ->
  ref = refstr /\ (String.length ref < String.length alt)%nat /\ alt <> ref.
Proof.
  unfold bkptRefAltFromPair. intros H. apply bind_Ok in H as (bkptstr & Hb & H).
  assert (Hlen : (0 < String.length bkptstr)%nat).
  { destruct loc2 as [l2|]; [destruct (__chrom__ l2)|]; try (injection Hb as <-; simpl; lia).
    destruct (bool_decide _); [|done]. injection Hb as <-.
    destruct (__right__ l2); simpl; lia. }
  assert (Hlt : ref = refstr /\ (String.length ref < String.length alt)%nat).
  { destruct (negb (__right__ loc1)); injection H as <- <-;
      rewrite string_length_app; split; (done || lia). }
  destruct Hlt as [-> Hlt]. split; [done|]. split; [done|].
  intros ->. lia.
Qed.

Lemma bkptRefAltFromPair_alt_longer_witness :
  (String.length "N" < String.length "]X:2000]N")%nat /\ "]X:2000]N" <> "N".
Proof.
  apply (bkptRefAltFromPair_alt_longer (mkLocation (Some "1") 1000 false true)
           (Some (mkLocation (Some "X") 2000 true false)) "N" "N" "]X:2000]N").
  reflexivity.
Defined.

(** ** More on emission *)

Lemma withPos_withPos (loc : location) (p q : Z) : withPos (withPos loc p) q = withPos loc q.
Proof. reflexivity. Qed.

(** X11: an SV record is placed on the chromosome of the first location
    at the first median position, with ref "N" and one alt; the positions
    stored in the two locations of the cluster play no part in what is
    printed. *)
Theorem emit_sv_uses_median_positions (output_ncallers debug filterByChromosome : bool)
    (min_num_callers : Z) (loc1 loc2 : location) (callers : list string)
    (medianPos1 medianPos2 : Z) (recordscalled : list (string * record)) :
  let emit l1 l2 :=
    emit_variant output_ncallers debug filterByChromosome min_num_callers
      (SV l1 (Some l2) callers medianPos1 medianPos2 recordscalled) in
  (forall p q, emit (withPos loc1 p) (withPos loc2 q) = emit loc1 loc2)
  /\ (forall ls r,
        emit loc1 loc2 = Ok ls -> Line r ∈ ls ->
        out_contig r = __chrom__ loc1 /\ out_start r = medianPos1
        /\ out_ref r = "N"
        /\ bkptRefAltFromPair (withPos loc1 medianPos1) (Some (withPos loc2 medianPos2)) "N"
           = Ok ("N", default "" (head (out_alts r)))
        /\ length (out_alts r) = 1%nat).
Proof.
  intros emit. split; [done|].
  intros ls r. unfold emit. cbn [emit_variant]. intros H Hr.
  apply bind_Ok in H as (skip & _ & H).
  destruct skip; [injection H as <-; by apply elem_of_nil in Hr|].
  unfold emit_sv_body in H.
  apply bind_Ok in H as ([ref alt] & Hbk & H).
  apply bind_Ok in H as (infodict & _ & H).
  apply bind_Ok in H as (info & _ & H). injection H as <-.
  apply elem_of_cons in Hr as [Heq|Hin].
  - injection Heq as ->. cbn.
    assert (ref = "N") as ->; [|done].
    unfold bkptRefAltFromPair in Hbk. apply bind_Ok in Hbk as (bkptstr & _ & Hbk).
    by injection Hbk as <- _.
  - destruct debug; [|by apply elem_of_nil in Hin].
    apply list_elem_of_fmap in Hin as (? & ? & _). discriminate.
Qed.

Lemma emit_sv_uses_median_positions_witness :
  let loc1 := mkLocation (Some "1") 990 true false in
  let loc2 := mkLocation (Some "1") 2020 true true in
  let rc := [("delly", rec_with [("SVTYPE", VStr "DEL")])] in
  emit_variant false false true 0 (SV loc1 (Some loc2) ["delly"] 1002 2001 rc)
  = emit_variant false false true 0
      (SV (withPos loc1 0) (Some (withPos loc2 0)) ["delly"] 1002 2001 rc)
  /\ exists r,
       emit_variant false false true 0 (SV loc1 (Some loc2) ["delly"] 1002 2001 rc)
       = Ok [Line r]
       /\ out_start r = 1002 /\ out_alts r = ["N[1:2001["].
Proof.
  intros loc1 loc2 rc.
  pose proof (emit_sv_uses_median_positions false false true 0 loc1 loc2 ["delly"]
                1002 2001 rc) as [Hpos Hline].
  split; [symmetry; apply Hpos|].
  destruct (emit_variant false false true 0 (SV loc1 (Some loc2) ["delly"] 1002 2001 rc))
    as [ls|e] eqn:Hemit; [|vm_compute in Hemit; discriminate].
  assert (Hls : exists r, ls = [Line r] /\ out_alts r = ["N[1:2001["]).
  { revert Hemit. vm_compute. intros [= <-]. eauto. }
  destruct Hls as (r & -> & Halts). exists r. split; [reflexivity|].
  split; [|exact Halts].
  destruct (Hline [Line r] r eq_refl (list_elem_of_here _ _)) as (_ & Hstart & _).
  exact Hstart.
Defined.

Lemma unwrap_list_scalar (v : pyval) : is_scalar v = true -> unwrap_list v = Ok v.
Proof. by destruct v. Qed.

(** On a dictionary of ints and strs [infoString] cannot fail, and this
    is what it returns. *)
Lemma infoString_scalar (output_ncallers : bool) (callers : list string)
    (infodict : gmap string pyval) :
  (forall f v, infodict !! f = Some v -> is_scalar v = true) ->
  exists out,
    infoString output_ncallers callers infodict = Ok out
    /\ forall k,
         out !! k =
           if decide (k = "Callers")
           then Some (IStr (String.concat "," (elements (caller_set callers))))
           else if decide (k = "NumCallers")
           then (if output_ncallers
                 then Some (IInt (Z.of_nat (size (caller_set callers)))) else None)
           else if decide (k = "SVLEN") then option_map (fun v => IStr (py_str v)) (infodict !! k)
           else if decide (k = "SVTYPE") then option_map (fun v => IStr (py_str v)) (infodict !! k)
           else None.
Proof.
  intros Hsc.
  assert (Hfield : forall info f,
            info_field infodict info f
            = Ok (match infodict !! f with
                  | Some v => <[f := IStr (py_str v)]> info
                  | None => info
                  end)).
  { intros info f. unfold info_field. destruct (infodict !! f) as [v|] eqn:Hv; [|done].
    by rewrite (unwrap_list_scalar v (Hsc f v Hv)). }
  unfold infoString. rewrite !Hfield. cbn [mbind result_bind]. rewrite Hfield.
  cbn [mbind result_bind]. eexists. split; [reflexivity|].
  intros k. destruct (decide (k = "Callers")) as [->|Hc]; [apply lookup_insert_eq|].
  rewrite lookup_insert_ne by done.
  assert (Hinner : forall (i : gmap string infoval),
            (if output_ncallers
             then <["NumCallers" := IInt (Z.of_nat (size (caller_set callers)))]> i
             else i) !! k
            = if decide (k = "NumCallers")
              then (if output_ncallers
                    then Some (IInt (Z.of_nat (size (caller_set callers)))) else i !! k)
              else i !! k).
  { intros i. destruct output_ncallers, (decide (k = "NumCallers")) as [->|]; try done.
    - apply lookup_insert_eq.
    - by apply lookup_insert_ne. }
  rewrite Hinner. clear Hinner.
  assert (Hi2 : forall k',
            (match infodict !! "SVLEN" with
             | Some v => <["SVLEN" := IStr (py_str v)]>
                           (match infodict !! "SVTYPE" with
                            | Some v0 => <["SVTYPE" := IStr (py_str v0)]> ∅
                            | None => ∅
                            end)
             | None => match infodict !! "SVTYPE" with
                       | Some v0 => <["SVTYPE" := IStr (py_str v0)]> ∅
                       | None => ∅
                       end
             end : gmap string infoval) !! k'
            = if decide (k' = "SVLEN") then option_map (fun v => IStr (py_str v)) (infodict !! k')
              else if decide (k' = "SVTYPE")
                   then option_map (fun v => IStr (py_str v)) (infodict !! k')
                   else None).
  { intros k'.
    destruct (decide (k' = "SVLEN")) as [->|Hl];
      [|destruct (decide (k' = "SVTYPE")) as [->|Ht]];
      destruct (infodict !! "SVLEN"), (infodict !! "SVTYPE"); simpl;
      rewrite ?lookup_insert_eq, ?lookup_insert_ne, ?lookup_insert_eq, ?lookup_empty by done;
      done. }
  destruct (decide (k = "NumCallers")) as [->|Hn].
  - destruct output_ncallers; [done|]. by rewrite Hi2.
  - by rewrite Hi2.
Qed.


(** X13: the INFO of every printed record uses only the keys the header
    declares: Callers always, NumCallers exactly when [output_ncallers]
    is set, and SVTYPE and SVLEN on SV records only; CHR2 and END are
    never written. *)
Theorem info_keys_declared (output_ncallers debug filterByChromosome : bool)
    (min_num_callers : Z) (v : variant) (ls : list outline) (r : vcfrec) :
  emit_variant output_ncallers debug filterByChromosome min_num_callers v = Ok ls ->
  Line r ∈ ls ->
  (forall k, is_Some (out_info r !! k) ->
             k ∈ ["Callers"; "NumCallers"; "SVTYPE"; "SVLEN"])
  /\ is_Some (out_info r !! "Callers")
  /\ (is_Some (out_info r !! "NumCallers") <-> output_ncallers = true)
  /\ (forall loc allele callers, v = SNV loc allele callers ->
        out_info r !! "SVTYPE" = None /\ out_info r !! "SVLEN" = None).
Proof.
  destruct v as [loc allele callers|loc1 loc2 callers m1 m2 rc]; cbn [emit_variant].
  - intros [= <-]. unfold emit_snv. destruct allele as [[a0 a1]|];
      [|by intros ?%elem_of_nil].
    cbn. intros [Heq|[]%elem_of_nil]%elem_of_cons. injection Heq as ->. cbn.
    assert (Hk : forall k,
              (if output_ncallers
               then <["NumCallers" := IStr (pretty (Z.of_nat (size (caller_set callers))))]>
                      (<["Callers" := IStr (String.concat "," callers)]> ∅)
               else <["Callers" := IStr (String.concat "," callers)]> ∅ : gmap string infoval)
              !! k
              = if decide (k = "NumCallers")
                then (if output_ncallers
                      then Some (IStr (pretty (Z.of_nat (size (caller_set callers)))))
                      else None)
                else if decide (k = "Callers")
                     then Some (IStr (String.concat "," callers)) else None).
    { intros k. destruct output_ncallers, (decide (k = "NumCallers")) as [->|Hn];
        rewrite ?lookup_insert_eq, ?lookup_insert_ne by done; try done;
        destruct (decide (k = "Callers")) as [->|Hc];
        rewrite ?lookup_insert_eq, ?lookup_insert_ne, ?lookup_empty by done; done. }
    repeat split.
    + intros k. rewrite Hk, !elem_of_cons.
      destruct (decide (k = "NumCallers")); [auto|].
      destruct (decide (k = "Callers")); [auto|]. by intros [? ?].
    + rewrite Hk. by cbn.
    + rewrite Hk. cbn. destruct output_ncallers; [done|]. by intros [? ?].
    + rewrite Hk. cbn. by destruct output_ncallers.
    + by rewrite Hk.
    + by rewrite Hk.
  - destruct loc2 as [loc2|]; [|done]. intros H Hr.
    apply bind_Ok in H as (skip & _ & H).
    destruct skip; [injection H as <-; by apply elem_of_nil in Hr|].
    unfold emit_sv_body in H.
    apply bind_Ok in H as ([ref alt] & _ & H).
    apply bind_Ok in H as (infodict & Hdict & H).
    apply bind_Ok in H as (info & Hinfo & H). injection H as <-.
    apply elem_of_cons in Hr as [Heq|Hin].
    2:{ destruct debug; [|by apply elem_of_nil in Hin].
        apply list_elem_of_fmap in Hin as (? & ? & _). discriminate. }
    injection Heq as ->. cbn.
    destruct (infoString_scalar output_ncallers callers infodict) as (out & Hout & Hk).
    { intros f w. by apply (make_info_dict_scalar _ _ _ _ _ _ Hdict). }
    rewrite Hout in Hinfo. injection Hinfo as <-.
    repeat split.
    + intros k. rewrite Hk, !elem_of_cons.
      destruct (decide (k = "Callers")); [auto|].
      destruct (decide (k = "NumCallers")); [auto|].
      destruct (decide (k = "SVLEN")); [auto 10|].
      destruct (decide (k = "SVTYPE")); [auto 10|]. by intros [? ?].
    + rewrite Hk. by cbn.
    + rewrite Hk. cbn. destruct output_ncallers; [done|]. by intros [? ?].
    + rewrite Hk. cbn. by destruct output_ncallers.
    + done.
    + done.
Qed.

Lemma info_keys_declared_witness :
  exists r,
    emit_variant false false true 0 (sv_example "2" ["delly"; "lumpy"]) = Ok [Line r]
    /\ is_Some (out_info r !! "Callers")
    /\ (is_Some (out_info r !! "NumCallers") <-> false = true).
Proof.
  destruct (emit_variant false false true 0 (sv_example "2" ["delly"; "lumpy"]))
    as [ls|e] eqn:Hemit; [|vm_compute in Hemit; discriminate].
  assert (Hls : exists r, ls = [Line r]).
  { revert Hemit. vm_compute. intros [= <-]. eauto. }
  destruct Hls as [r ->]. exists r. split; [reflexivity|].
  destruct (info_keys_declared false false true 0 _ [Line r] r Hemit
              (list_elem_of_here _ _)) as (_ & Hc & Hn & _).
  split; [exact Hc | exact Hn].
Defined.

(** X14: on an SV record the Callers value joins the caller names of the
    cluster with each name written once, and NumCallers, when written,
    is the number of names joined. *)
Theorem sv_callers_listed_once (output_ncallers debug filterByChromosome : bool)
    (min_num_callers : Z) (loc1 : location) (loc2 : option location)
    (callers : list string) (medianPos1 medianPos2 : Z)
    (recordscalled : list (string * record)) (ls : list outline) (r : vcfrec) :
  emit_variant output_ncallers debug filterByChromosome min_num_callers
    (SV loc1 loc2 callers medianPos1 medianPos2 recordscalled) = Ok ls ->
  Line r ∈ ls ->
  exists names,
    out_info r !! "Callers" = Some (IStr (String.concat "," names))
    /\ NoDup names
    /\ (forall c, c ∈ names <-> c ∈ callers)
    /\ (output_ncallers = true ->
        out_info r !! "NumCallers" = Some (IInt (Z.of_nat (length names)))).
Proof.
  cbn [emit_variant]. destruct loc2 as [loc2|]; [|done]. intros H Hr.
  apply bind_Ok in H as (skip & _ & H).
  destruct skip; [injection H as <-; by apply elem_of_nil in Hr|].
  unfold emit_sv_body in H.
  apply bind_Ok in H as ([ref alt] & _ & H).
  apply bind_Ok in H as (infodict & _ & H).
  apply bind_Ok in H as (info & Hinfo & H). injection H as <-.
  apply elem_of_cons in Hr as [Heq|Hin].
  - injection Heq as ->. cbn. by eapply infoString_callers.
  - destruct debug; [|by apply elem_of_nil in Hin].
    apply list_elem_of_fmap in Hin as (? & ? & _). discriminate.
Qed.

Lemma sv_callers_listed_once_witness :
  exists r names,
    emit_variant true false true 0 (sv_example "2" ["delly"; "lumpy"; "delly"]) = Ok [Line r]
    /\ out_info r !! "Callers" = Some (IStr (String.concat "," names))
    /\ NoDup names
    /\ out_info r !! "NumCallers" = Some (IInt (Z.of_nat (length names))).
Proof.
  destruct (emit_variant true false true 0 (sv_example "2" ["delly"; "lumpy"; "delly"]))
    as [ls|e] eqn:Hemit; [|vm_compute in Hemit; discriminate].
  assert (Hls : exists r, ls = [Line r]).
  { revert Hemit. vm_compute. intros [= <-]. eauto. }
  destruct Hls as [r ->].
  destruct (sv_callers_listed_once true false true 0 _ _ _ _ _ _ [Line r] r Hemit
              (list_elem_of_here _ _)) as (names & Hc & Hnd & _ & Hn).
  exists r, names. split; [reflexivity|]. split; [exact Hc|]. split; [exact Hnd|].
  apply Hn. reflexivity.
Defined.

(** A line that is not a consensus record. *)
Lemma DebugLine_not_Line (recordscalled : list (string * record)) (r : vcfrec) :
  Line r ∉ map (fun cr => DebugLine cr.1 cr.2) recordscalled.
Proof. intros (? & ? & _)%list_elem_of_fmap. discriminate. Qed.

(** X15: a cluster gives at most one consensus record, printed before
    the debug copies of its members, and no debug copy is printed unless
    [debug] is set; so the loop prints at most as many records as there
    are clusters. *)
Theorem one_record_per_cluster (output_ncallers debug filterByChromosome : bool)
    (min_num_callers : Z) :
  (forall v ls,
      emit_variant output_ncallers debug filterByChromosome min_num_callers v = Ok ls ->
      ls = []
      \/ exists r copies,
           ls = Line r :: copies
           /\ (forall r', Line r' ∉ copies)
           /\ (debug = false -> copies = []))
  /\ (forall vs,
        (length (printed_records
                   (emit_all output_ncallers debug filterByChromosome
                      min_num_callers vs).1)
         <= length vs)%nat).
Proof.
  assert (Hone : forall v ls,
      emit_variant output_ncallers debug filterByChromosome min_num_callers v = Ok ls ->
      ls = []
      \/ exists r copies,
           ls = Line r :: copies
           /\ (forall r', Line r' ∉ copies)
           /\ (debug = false -> copies = [])).
  { intros v ls. destruct v as [loc allele callers|loc1 loc2 callers m1 m2 rc];
      cbn [emit_variant].
    - intros [= <-]. unfold emit_snv. destruct allele as [[a0 a1]|]; [|by left].
      right. cbn. eexists _, []. split; [reflexivity|]. split; [|done].
      intros r'. apply not_elem_of_nil.
    - destruct loc2 as [loc2|]; [|done]. intros H.
      apply bind_Ok in H as (skip & _ & H).
      destruct skip; [injection H as <-; by left|].
      unfold emit_sv_body in H.
      apply bind_Ok in H as ([ref alt] & _ & H).
      apply bind_Ok in H as (infodict & _ & H).
      apply bind_Ok in H as (info & _ & H). injection H as <-.
      right. eexists _, _. split; [reflexivity|]. split.
      + intros r'. destruct debug; [apply DebugLine_not_Line|apply not_elem_of_nil].
      + by intros ->. }
  split; [exact Hone|].
  induction vs as [|v vs IH]; cbn [emit_all]; [done|].
  destruct (emit_variant output_ncallers debug filterByChromosome min_num_callers v)
    as [ls|e] eqn:Hv; [|cbn; lia].
  destruct (emit_all output_ncallers debug filterByChromosome min_num_callers vs)
    as [rest e]. cbn [fst length] in *.
  unfold printed_records in *. rewrite omap_app, length_app.
  assert (Hle : (length (printed_records ls) <= 1)%nat).
  { destruct (Hone v ls Hv) as [->|(r & copies & -> & Hno & _)]; [cbn; lia|].
    unfold printed_records. cbn [omap list_omap].
    replace (omap _ copies) with (@nil vcfrec); [cbn; lia|].
    symmetry. clear -Hno. induction copies as [|l copies IH]; [done|].
    destruct l as [r'|c rec]; [by destruct (Hno r' (list_elem_of_here _ _))|].
    cbn. apply IH. intros r' Hr'. apply (Hno r'). by right. }
  unfold printed_records in Hle.
  lia.
Qed.

Lemma one_record_per_cluster_witness :
  exists r copies,
    emit_variant false true true 0 (sv_example "2" ["delly"; "lumpy"])
    = Ok (Line r :: copies)
    /\ length copies = 2%nat /\ forall r', Line r' ∉ copies.
Proof.
  destruct (emit_variant false true true 0 (sv_example "2" ["delly"; "lumpy"]))
    as [ls|e] eqn:Hemit; [|vm_compute in Hemit; discriminate].
  assert (Hlen : length ls = 3%nat).
  { revert Hemit. vm_compute. by intros [= <-]. }
  destruct (proj1 (one_record_per_cluster false true true 0) _ ls Hemit)
    as [->|(r & copies & -> & Hno & _)]; [discriminate|].
  exists r, copies. split; [reflexivity|]. split; [|exact Hno].
  cbn in Hlen. congruence.
Defined.

(** X16: without a positive [min_num_callers] no record is tagged
    LOWSUPPORT: every record printed carries ".", so the LOWSUPPORT
    filter is only used in runs whose header declares it. *)
Theorem no_lowsupport_without_threshold (output_ncallers debug filterByChromosome : bool)
    (min_num_callers : Z) (vs : list variant) (r : vcfrec) :
  (min_num_callers <= 0)%Z ->
  Line r ∈ (emit_all output_ncallers debug filterByChromosome min_num_callers vs).1 ->
  out_filter r = ["."].
Proof.
  intros Hmin. induction vs as [|v vs IH]; cbn [emit_all]; [by intros ?%elem_of_nil|].
  destruct (emit_variant output_ncallers debug filterByChromosome min_num_callers v)
    as [ls|e] eqn:Hv; [|by intros ?%elem_of_nil].
  destruct (emit_all output_ncallers debug filterByChromosome min_num_callers vs)
    as [rest e]. cbn [fst] in *.
  intros [Hin|Hin]%elem_of_app; [|by apply IH].
  rewrite (emit_variant_filter _ _ _ _ _ _ _ Hv Hin). unfold filterstring. cbn zeta.
  destruct (Z.leb_spec min_num_callers
              (Z.of_nat (size (caller_set (variant_callers v))))); [done|lia].
Qed.

Lemma no_lowsupport_without_threshold_witness :
  let r := mkVcfrec (Some "1") 100 "A" ["T"] [filterstring 0 []]
             (<["Callers" := IStr ""]> ∅) in
  out_filter r = ["."].
Proof.
  intros r.
  apply (no_lowsupport_without_threshold false false true 0
           [SNV (mkLocation (Some "1") 100 true false) (Some ("A", "T")) []] r).
  - lia.
  - apply list_elem_of_here.
Defined.

(** X17: the loop prints cluster after cluster: the output for two runs
    of clusters is the output of the first run followed by that of the
    second, and a cluster that raises ends the output there, with all the
    earlier lines printed and none of the later ones. *)
Theorem emit_all_app (output_ncallers debug filterByChromosome : bool)
    (min_num_callers : Z) (vs1 vs2 : list variant) :
  let emit := emit_all output_ncallers debug filterByChromosome min_num_callers in
  emit (vs1 ++ vs2)%list
  = match emit vs1 with
    | (lines1, Some e) => (lines1, Some e)
    | (lines1, None) => let '(lines2, e) := emit vs2 in ((lines1 ++ lines2)%list, e)
    end.
Proof.
  intros emit. unfold emit. induction vs1 as [|v vs1 IH]; cbn [emit_all app].
  - by destruct (emit_all _ _ _ _ vs2).
  - destruct (emit_variant output_ncallers debug filterByChromosome min_num_callers v)
      as [ls|e]; [|done].
    rewrite IH.
    destruct (emit_all output_ncallers debug filterByChromosome min_num_callers vs1)
      as [lines1 [e|]]; [done|].
    destruct (emit_all output_ncallers debug filterByChromosome min_num_callers vs2)
      as [lines2 e]. by rewrite app_assoc.
Qed.

(** ** More on ingestion *)

(** X18: with [debug] off, the exception that ends the reading of the
    input files is never one of RuntimeError, TypeError, NameError and
    AttributeError: those are always swallowed. *)
Theorem ingest_files_swallows_recovered (calldict : Type)
    (addrecord : calldict -> record -> string -> bool -> calldict * option exn)
    (VariantFile : string -> vcf_source)
    (noFilter filterByChromosome forceSV : bool)
    (inputs : list (string * string)) (d d' : calldict) (e : exn) :
  ingest_files calldict addrecord VariantFile noFilter filterByChromosome forceSV
    false inputs d = (d', Some e) ->
  recovered e = false.
Proof.
  revert d. induction inputs as [|[infile program] inputs IH]; intros d;
    cbn [ingest_files]; [done|].
  unfold ingest_file.
  destruct (try_file calldict addrecord VariantFile noFilter filterByChromosome
              forceSV infile program d) as [d1 [e1|]].
  - destruct (recovered e1) eqn:Hrec; [apply IH|]. by intros [= _ <-].
  - apply IH.
Qed.

Lemma ingest_files_swallows_recovered_witness : recovered ValueError = false.
Proof.
  apply (ingest_files_swallows_recovered CallLog.calldict CallLog.addrecord files
           false true false
           [("broken.vcf", "delly"); ("truncated.vcf", "lumpy"); ("good.vcf", "manta")]
           [] [(good_record, "delly", false); (good_record, "lumpy", false)] ValueError).
  reflexivity.
Defined.

(** X19: the calls [merge] makes to [addrecord] for one file are, in
    stream order, the records read before the reader ends or fails that
    pass the FILTER test and the chromosome filter, each with the
    program name of the file and the [forceSV] argument as given. *)
Theorem ingest_records_calls (noFilter filterByChromosome forceSV : bool)
    (program : string) (s : fetch_stream) (d : CallLog.calldict) :
  ingest_records CallLog.calldict CallLog.addrecord noFilter filterByChromosome
    forceSV program s d
  = ((d ++ map (fun r => (r, program, forceSV))
             (filter (fun r => ingested noFilter filterByChromosome r = true)
                (stream_records s)))%list,
     stream_failure s).
Proof.
  revert d. induction s as [|r rest IH|e]; intros d; cbn [ingest_records stream_records
    stream_failure].
  - by rewrite filter_nil, app_nil_r.
  - destruct (ingested noFilter filterByChromosome r) eqn:Hr.
    + rewrite filter_cons_True by done. cbn [CallLog.addrecord map]. rewrite IH.
      by rewrite <- app_assoc.
    + rewrite filter_cons_False by (by rewrite Hr). apply IH.
  - by rewrite filter_nil, app_nil_r.
Qed.

(** X20: input files and program names are paired in order; a file
    without a program name, or a program name without a file, is left
    out of the run without any error. *)
Theorem merge_unpaired_inputs (calldict : Type) (variantmap : Z -> Z -> calldict)
    (addrecord : calldict -> record -> string -> bool -> calldict * option exn)
    (sorted_calldict : calldict -> list variant) (VariantFile : string -> vcf_source)
    (filenames programs extra : list string) (forceSV : bool) (slop : Z)
    (output_ncallers : bool) (min_num_callers : Z)
    (filterByChromosome noFilter debug : bool) :
  length filenames = length programs ->
  let run fs ps :=
    merge calldict variantmap addrecord sorted_calldict VariantFile fs ps
      forceSV slop output_ncallers min_num_callers filterByChromosome noFilter debug in
  run (filenames ++ extra)%list programs = run filenames programs
  /\ run filenames (programs ++ extra)%list = run filenames programs.
Proof.
  intros Hlen run. unfold run, merge.
  assert (H1 : zip (filenames ++ extra) programs = zip filenames programs).
  { rewrite <- (app_nil_r programs) at 1.
    rewrite zip_with_app by done. by rewrite zip_with_nil_r, app_nil_r. }
  assert (H2 : zip filenames (programs ++ extra) = zip filenames programs).
  { rewrite <- (app_nil_r filenames) at 1.
    rewrite zip_with_app by done. cbn. by rewrite app_nil_r. }
  by rewrite H1, H2.
Qed.

Lemma merge_unpaired_inputs_witness :
  merge CallLog.calldict CallLog.variantmap CallLog.addrecord (fun _ => []) files
    ["good.vcf"; "invalid.vcf"] ["delly"] false 0 false 0 true false false
  = ([], None).
Proof.
  etransitivity.
  - apply (proj1 (merge_unpaired_inputs CallLog.calldict CallLog.variantmap
                    CallLog.addrecord (fun _ => []) files ["good.vcf"] ["delly"]
                    ["invalid.vcf"] false 0 false 0 true false false eq_refl)).
  - reflexivity.
Defined.

(** ** More on the chromosome filter *)

(** X21: the test looks at no more than the first two characters and
    never fails on a short name: the empty name and every name whose
    first character is not G, M, h or N are mapped, and so are the
    one-letter names other than M. *)
Theorem mapped_to_chromosome_short_names :
  mapped_to_chromosome "" = true
  /\ (forall c s,
        c ∉ ["G"; "M"; "h"; "N"]%char -> mapped_to_chromosome (String c s) = true)
  /\ (forall c, c <> "M"%char -> mapped_to_chromosome (String c "") = true).
Proof.
  split; [done|].
  assert (Hfirst : forall c s, mapped_to_chromosome (String c s) = false ->
             c ∈ ["G"; "M"; "h"; "N"]%char).
  { intros c s H. apply mapped_to_chromosome_false in H.
    rewrite !elem_of_cons. cbn [String.prefix] in H.
    destruct H as [H|[H|[H|[H|H]]]];
      match type of H with
      | (if ascii_dec ?a c then _ else _) = true =>
          destruct (ascii_dec a c) as [<-|]; [auto 10|done]
      end. }
  split.
  - intros c s Hc. destruct (mapped_to_chromosome (String c s)) eqn:Hm; [done|].
    by destruct (Hc (Hfirst c s Hm)).
  - intros c Hc. destruct (mapped_to_chromosome (String c "")) eqn:Hm; [done|].
    apply mapped_to_chromosome_false in Hm. cbn [String.prefix] in Hm.
    destruct Hm as [H|[H|[H|[H|H]]]];
      match type of H with
      | (if ascii_dec ?a c then _ else _) = true =>
          destruct (ascii_dec a c) as [<-|]; done
      end.
Qed.

Lemma mapped_to_chromosome_short_names_witness :
  mapped_to_chromosome "chrM" = true /\ mapped_to_chromosome "G" = true.
Proof.
  split.
  - apply (proj1 (proj2 mapped_to_chromosome_short_names) "c"%char "hrM").
    rewrite !elem_of_cons, elem_of_nil. intuition discriminate.
  - apply (proj2 (proj2 mapped_to_chromosome_short_names) "G"%char). discriminate.
Defined.

(** ** [readMergedCalls]: the caller lists *)

Lemma first_occurrences_elem (seen l : list string) (c : string) :
  c ∈ first_occurrences seen l <-> c ∈ l /\ c ∉ seen.
Proof.
  revert seen. induction l as [|x l IH]; intros seen; cbn [first_occurrences].
  - rewrite !elem_of_nil. tauto.
  - destruct (decide (x ∈ seen)) as [Hx|Hx].
    + rewrite (bool_decide_eq_true_2 _ Hx), IH, elem_of_cons. split; [tauto|].
      intros [[->|Hc] Hs]; [done|tauto].
    + rewrite (bool_decide_eq_false_2 _ Hx), !elem_of_cons, IH, elem_of_app,
        elem_of_cons, elem_of_nil.
      destruct (decide (c = x)) as [->|Hne]; [tauto|]. tauto.
Qed.

Lemma first_occurrences_NoDup (seen l : list string) : NoDup (first_occurrences seen l).
Proof.
  revert seen. induction l as [|x l IH]; intros seen; cbn [first_occurrences].
  - constructor.
  - destruct (bool_decide (x ∈ seen)); [apply IH|].
    constructor; [|apply IH]. rewrite first_occurrences_elem, elem_of_app,
      elem_of_cons. tauto.
Qed.

(** The callers a record is attributed to: its Callers without the
    skipped ones, each once. *)
Lemma called_names_spec (filterByChromosome : bool) (skipcallers : list string)
    (rec : merged_record) :
  NoDup (called_names filterByChromosome skipcallers rec)
  /\ (forall c, c ∈ called_names filterByChromosome skipcallers rec ->
                (c ∉ skipcallers) /\ c ∈ default [] (mr_Callers rec)).
Proof.
  unfold called_names.
  destruct (filterByChromosome && negb (mapped_to_chromosome (mr_chrom rec))).
  - split; [constructor|]. by intros c ?%elem_of_nil.
  - split; [apply first_occurrences_NoDup|].
    intros c [Hc _]%first_occurrences_elem. by apply list_elem_of_filter in Hc.
Qed.

(** ** [readMergedCalls]: the call sets *)

Lemma indices_from_app (n : nat) (c : string) (L1 L2 : list (list string)) :
  indices_from n c (L1 ++ L2)
  = (indices_from n c L1 ++ indices_from (n + length L1) c L2)%list.
Proof.
  revert n. induction L1 as [|called L1 IH]; intros n; cbn [indices_from app length].
  - by rewrite Nat.add_0_r.
  - rewrite IH, <- app_assoc. do 3 f_equal. lia.
Qed.

Lemma indices_from_elem (n : nat) (c : string) (L : list (list string)) (j : nat) :
  j ∈ indices_from n c L <->
  (n <= j)%nat /\ exists called, L !! (j - n)%nat = Some called /\ c ∈ called.
Proof.
  revert n. induction L as [|called L IH]; intros n; cbn [indices_from].
  - rewrite elem_of_nil. split; [done|]. by intros [_ (? & ? & _)].
  - rewrite elem_of_app, IH. split.
    + intros [Hj|[Hle (called' & Hl & Hc)]].
      * destruct (decide (c ∈ called)) as [Hc|Hc].
        -- rewrite (bool_decide_eq_true_2 _ Hc) in Hj.
           apply elem_of_cons in Hj as [->|Hj]; [|by apply elem_of_nil in Hj].
           split; [lia|]. exists called. by rewrite Nat.sub_diag.
        -- rewrite (bool_decide_eq_false_2 _ Hc) in Hj. by apply elem_of_nil in Hj.
      * split; [lia|]. exists called'. split; [|done].
        replace (j - n)%nat with (S (j - S n)) by lia. done.
    + intros [Hle (called' & Hl & Hc)].
      destruct (decide (j = n)) as [->|Hne].
      * left. rewrite Nat.sub_diag in Hl. injection Hl as ->.
        rewrite (bool_decide_eq_true_2 _ Hc). by left.
      * right. split; [lia|]. exists called'. split; [|done].
        replace (j - n)%nat with (S (j - S n)) in Hl by lia. done.
Qed.

Lemma indices_from_sorted (n : nat) (c : string) (L : list (list string)) :
  StronglySorted lt (indices_from n c L).
Proof.
  revert n. induction L as [|called L IH]; intros n; cbn [indices_from]; [constructor|].
  destruct (bool_decide (c ∈ called)); [|apply IH].
  cbn [app]. constructor; [apply IH|].
  apply Forall_forall. intros j [Hj _]%indices_from_elem. lia.
Qed.

Lemma indices_from_nil (n : nat) (c : string) (L : list (list string)) :
  indices_from n c L = [] <-> forall called, called ∈ L -> c ∉ called.
Proof.
  revert n. induction L as [|called L IH]; intros n; cbn [indices_from].
  - split; [|done]. by intros _ called ?%elem_of_nil.
  - destruct (decide (c ∈ called)) as [Hc|Hc].
    + rewrite (bool_decide_eq_true_2 _ Hc). split; [done|].
      intros H. by destruct (H called (list_elem_of_here _ _)).
    + rewrite (bool_decide_eq_false_2 _ Hc). cbn [app]. rewrite IH. split.
      * intros H called' [->|Hin]%elem_of_cons; [done|by apply H].
      * intros H called' Hin. apply H. by right.
Qed.

(** Naming a new caller in the last list appends the index of that list
    to the indices of the caller and changes no other indices. *)
Lemma indices_from_snoc (c caller : string) (L : list (list string)) (called : list string) :
  caller ∉ called ->
  indices_from 0 c (L ++ [(called ++ [caller])%list])
  = if decide (c = caller)
    then (indices_from 0 c (L ++ [called]) ++ [length L])%list
    else indices_from 0 c (L ++ [called]).
Proof.
  intros Hnew. rewrite !indices_from_app. cbn [indices_from Nat.add].
  destruct (decide (c = caller)) as [->|Hne].
  - rewrite (bool_decide_eq_false_2 _ Hnew).
    rewrite bool_decide_eq_true_2 by (apply elem_of_app; right; by left).
    by rewrite !app_nil_r.
  - destruct (decide (c ∈ called)) as [Hc|Hc].
    + rewrite (bool_decide_eq_true_2 _ Hc).
      by rewrite bool_decide_eq_true_2 by (apply elem_of_app; by left).
    + rewrite (bool_decide_eq_false_2 _ Hc).
      rewrite bool_decide_eq_false_2; [done|].
      rewrite elem_of_app, elem_of_cons, elem_of_nil. tauto.
Qed.

Lemma first_occurrences_snoc (seen l : list string) (x : string) :
  first_occurrences seen (l ++ [x])
  = (first_occurrences seen l ++ if decide (x ∈ (seen ++ l)%list) then [] else [x])%list.
Proof.
  revert seen. induction l as [|y l IH]; intros seen; cbn [first_occurrences app].
  - rewrite app_nil_r. destruct (decide (x ∈ seen)) as [Hx|Hx].
    + by rewrite (bool_decide_eq_true_2 _ Hx).
    + by rewrite (bool_decide_eq_false_2 _ Hx).
  - destruct (decide (y ∈ seen)) as [Hy|Hy].
    + rewrite (bool_decide_eq_true_2 _ Hy), IH.
      destruct (decide (x ∈ (seen ++ l)%list)) as [H1|H1],
               (decide (x ∈ (seen ++ y :: l)%list)) as [H2|H2]; try done;
        exfalso; rewrite elem_of_app in H1; rewrite elem_of_app, elem_of_cons in H2;
        [tauto|]. destruct H2 as [?|[->|?]]; tauto.
    + rewrite (bool_decide_eq_false_2 _ Hy), IH. cbn [app]. f_equal. f_equal.
      destruct (decide (x ∈ ((seen ++ [y]) ++ l)%list)) as [H1|H1],
               (decide (x ∈ (seen ++ y :: l)%list)) as [H2|H2]; try done;
        exfalso; rewrite <- app_assoc in H1; cbn [app] in H1; tauto.
Qed.

Lemma elem_of_concat (L : list (list string)) (c : string) :
  c ∈ List.concat L <-> exists called, called ∈ L /\ c ∈ called.
Proof.
  rewrite list_elem_of_In, in_concat. split; intros (called & H1 & H2); exists called;
    by rewrite ?list_elem_of_In in *.
Qed.

Lemma caller_order_snoc (L : list (list string)) (called : list string) (caller : string) :
  caller_order (L ++ [(called ++ [caller])%list])
  = (caller_order (L ++ [called])
     ++ if decide (caller ∈ List.concat (L ++ [called])) then [] else [caller])%list.
Proof.
  unfold caller_order. rewrite !concat_app. cbn [List.concat]. rewrite !app_nil_r.
  rewrite app_assoc, first_occurrences_snoc. cbn [app]. done.
Qed.

Lemma caller_order_snoc_nil (L : list (list string)) :
  caller_order (L ++ [[]]) = caller_order L.
Proof. unfold caller_order. rewrite concat_app. cbn. by rewrite app_nil_r. Qed.

Lemma elem_of_snoc_lists (L : list (list string)) (called called' : list string) :
  called' ∈ (L ++ [called])%list <-> called' ∈ L \/ called' = called.
Proof. rewrite elem_of_app, elem_of_cons, elem_of_nil. tauto. Qed.

(** One round of the loop over the callers of a record keeps the index
    in agreement with the caller lists, and cannot fail. *)
Lemma register_call_step (L : list (list string)) (called : list string)
    (caller : string) (ix : caller_index) :
  index_for (L ++ [called]) ix -> caller ∉ called ->
  exists ix',
    register_call (length L) caller ix = Ok ix'
    /\ index_for (L ++ [(called ++ [caller])%list]) ix'.
Proof.
  intros [(Hlen & Hsets & Hinj & Hsurj & Hreg) [Hnamed [Hord_len Hord]]] Hnew.
  assert (Hlt : forall c i, callerIdxDict ix !! c = Some i -> (i < callerIdx ix)%nat).
  { intros c i Hc. rewrite <- Hlen. by eapply lookup_lt_Some, Hsets. }
  assert (Hreg' : forall d : gmap string nat,
            (forall c, is_Some (callerIdxDict ix !! c) -> is_Some (d !! c)) ->
            is_Some (d !! caller) ->
            forall c called', called' ∈ (L ++ [(called ++ [caller])%list])%list ->
              c ∈ called' -> is_Some (d !! c)).
  { intros d Hd Hcaller c called' [Hin| ->]%elem_of_snoc_lists Hc.
    - apply Hd, (Hreg c called'); [|done]. apply elem_of_snoc_lists. by left.
    - apply elem_of_app in Hc as [Hc|Hc].
      + apply Hd, (Hreg c called); [|done]. apply elem_of_snoc_lists. by right.
      + apply elem_of_cons in Hc as [->|Hc]; [done|by apply elem_of_nil in Hc]. }
  assert (Hnamed' : forall c, (exists called', called' ∈ (L ++ [called])%list /\ c ∈ called')
            \/ c = caller ->
            exists called', called' ∈ (L ++ [(called ++ [caller])%list])%list /\ c ∈ called').
  { intros c [(called' & [Hin| ->]%elem_of_snoc_lists & Hc)| ->].
    - exists called'. split; [|done]. apply elem_of_snoc_lists. by left.
    - exists (called ++ [caller])%list. split; [apply elem_of_snoc_lists; by right|].
      apply elem_of_app. by left.
    - exists (called ++ [caller])%list. split; [apply elem_of_snoc_lists; by right|].
      apply elem_of_app. right. by left. }
  unfold register_call. destruct (callerIdxDict ix !! caller) as [i|] eqn:Hd.
  - rewrite Hd, (Hsets _ _ Hd). eexists. split; [reflexivity|].
    assert (Hin : caller ∈ List.concat (L ++ [called])).
    { apply elem_of_concat. by eapply Hnamed. }
    split; [split; [|split; [|split; [|split]]]|split; [|split]];
      cbn [callerIdxDict callsets callerIdx].
    + by rewrite length_insert.
    + intros c j Hc. rewrite indices_from_snoc by done.
      destruct (decide (c = caller)) as [->|Hne].
      * assert (j = i) as -> by congruence.
        apply list_lookup_insert_eq. rewrite Hlen. by eapply Hlt.
      * rewrite list_lookup_insert_ne; [by apply Hsets|].
        intros <-. by destruct (Hne (Hinj _ _ _ Hc Hd)).
    + exact Hinj.
    + exact Hsurj.
    + apply Hreg'; [done|by rewrite Hd].
    + intros c j Hc. apply Hnamed'. left. by eapply Hnamed.
    + by rewrite caller_order_snoc, decide_True, app_nil_r.
    + intros c j. rewrite caller_order_snoc, decide_True, app_nil_r by done. apply Hord.
  - cbn [callerIdxDict callsets callerIdx]. rewrite lookup_insert_eq.
    assert (Hlast : (callsets ix ++ [[]])%list !! callerIdx ix = Some []).
    { rewrite <- Hlen. by apply list_lookup_middle. }
    rewrite Hlast. eexists. split; [reflexivity|].
    assert (Hfresh : indices_from 0 caller (L ++ [called]) = []).
    { apply indices_from_nil. intros called' Hin Hc.
      destruct (Hreg caller called' Hin Hc) as [? ?]. congruence. }
    assert (Hnotin : caller ∉ List.concat (L ++ [called])).
    { intros (called' & Hcalled' & Hc)%elem_of_concat.
      destruct (Hreg caller called' Hcalled' Hc) as [? ?]. congruence. }
    split; [split; [|split; [|split; [|split]]]|split; [|split]];
      cbn [callerIdxDict callsets callerIdx].
    + rewrite length_insert, length_app. cbn. lia.
    + intros c j. rewrite indices_from_snoc by done.
      destruct (decide (c = caller)) as [->|Hne].
      * rewrite lookup_insert_eq. intros [= <-]. rewrite Hfresh.
        apply list_lookup_insert_eq. rewrite length_app. cbn. lia.
      * rewrite lookup_insert_ne by done. intros Hc.
        pose proof (Hlt _ _ Hc) as Hj.
        rewrite list_lookup_insert_ne by lia.
        rewrite lookup_app_l by lia. by apply Hsets.
    + intros c c' j.
      destruct (decide (c = caller)) as [->|Hne], (decide (c' = caller)) as [->|Hne'];
        rewrite ?lookup_insert_eq, ?lookup_insert_ne by done; try done.
      * intros [= <-] Hc'. pose proof (Hlt _ _ Hc'). lia.
      * intros Hc [= <-]. pose proof (Hlt _ _ Hc). lia.
      * apply Hinj.
    + intros j Hj. destruct (decide (j = callerIdx ix)) as [->|Hne].
      * exists caller. apply lookup_insert_eq.
      * destruct (Hsurj j) as [c Hc]; [lia|]. exists c.
        rewrite lookup_insert_ne; [done|]. intros <-. congruence.
    + apply Hreg'; [|by rewrite lookup_insert_eq].
      intros c Hc. destruct (decide (c = caller)) as [->|Hne].
      * by rewrite lookup_insert_eq.
      * by rewrite lookup_insert_ne.
    + unfold index_named. cbn [callerIdxDict]. intros c j.
      destruct (decide (c = caller)) as [->|Hne].
      * intros _. apply Hnamed'. by right.
      * rewrite lookup_insert_ne by done. intros Hc. apply Hnamed'. left.
        by eapply Hnamed.
    + rewrite caller_order_snoc, decide_False, length_app by done. cbn. lia.
    + intros c j. rewrite caller_order_snoc, decide_False, lookup_snoc_Some by done.
      destruct (decide (c = caller)) as [->|Hne].
      * rewrite lookup_insert_eq. split.
        -- intros [= <-]. right. by rewrite Hord_len.
        -- intros [[_ Hl]|[-> _]]; [|by rewrite Hord_len].
           apply Hord in Hl. congruence.
      * rewrite lookup_insert_ne by done. rewrite Hord. split.
        -- intros Hl. left. split; [by eapply lookup_lt_Some|done].
        -- intros [[_ ?]|[_ ?]]; [done|congruence].
Qed.

Lemma index_for_snoc_nil (L : list (list string)) (ix : caller_index) :
  index_for (L ++ [[]]) ix <-> index_for L ix.
Proof.
  assert (Hidx : forall c, indices_from 0 c (L ++ [[]]) = indices_from 0 c L).
  { intros c. rewrite indices_from_app. cbn [indices_from].
    rewrite bool_decide_eq_false_2 by apply not_elem_of_nil. by rewrite !app_nil_r. }
  assert (Hin : forall c called, c ∈ called ->
            called ∈ (L ++ [[]])%list <-> called ∈ L).
  { intros c called Hc. rewrite elem_of_snoc_lists. split; [|tauto].
    intros [?| ->]; [done|by apply elem_of_nil in Hc]. }
  unfold index_for, index_core, index_named, index_order.
  rewrite caller_order_snoc_nil.
  split; intros [(Hlen & Hsets & Hinj & Hsurj & Hreg) [Hnamed Hord]];
    (split; [split; [done|split; [|split; [done|split; [done|]]]]|split; [|done]]).
  - intros c i Hc. rewrite <- Hidx. by apply Hsets.
  - intros c called Hcalled Hc. apply (Hreg c called); [|done]. by apply (Hin c).
  - intros c i Hc. destruct (Hnamed c i Hc) as (called & Hcalled & Hcc).
    exists called. split; [|done]. by apply (Hin c).
  - intros c i Hc. rewrite Hidx. by apply Hsets.
  - intros c called Hcalled Hc. apply (Hreg c called); [|done]. by apply (Hin c).
  - intros c i Hc. destruct (Hnamed c i Hc) as (called & Hcalled & Hcc).
    exists called. split; [|done]. by apply (Hin c).
Qed.

(** The loop over the callers of a record cannot fail: it attributes the
    record to the first occurrences of its callers and keeps the index in
    agreement with the caller lists. *)
Lemma callers_loop_spec (skipcallers : list string) (L : list (list string))
    (callers called : list string) (k : nat) (ix : caller_index) :
  Forall (fun c => c ∉ skipcallers) callers ->
  index_for (L ++ [called]) ix ->
  exists ix',
    callers_loop skipcallers (length L) callers called k ix
    = Ok ((called ++ first_occurrences called callers)%list,
          (k + length (first_occurrences called callers))%nat, ix')
    /\ index_for (L ++ [(called ++ first_occurrences called callers)%list]) ix'.
Proof.
  intros Hskip. revert called k ix.
  induction Hskip as [|caller callers Hcaller Hskip IH]; intros called k ix Hinv;
    cbn [callers_loop first_occurrences].
  - exists ix. rewrite app_nil_r, Nat.add_0_r. done.
  - rewrite (bool_decide_eq_false_2 _ Hcaller). cbn [negb]. rewrite andb_true_r.
    destruct (decide (caller ∈ called)) as [Hin|Hnin].
    + rewrite (bool_decide_eq_true_2 _ Hin). cbn [negb]. by apply IH.
    + rewrite (bool_decide_eq_false_2 _ Hnin). cbn [negb].
      destruct (register_call_step L called caller ix Hinv Hnin) as (ix1 & -> & Hinv1).
      cbn [mbind result_bind].
      destruct (IH (called ++ [caller])%list (S k) ix1 Hinv1) as (ix' & -> & Hinv').
      exists ix'. rewrite <- app_assoc in *. cbn [app length] in *.
      split; [|done]. do 3 f_equal. lia.
Qed.

Lemma mapM_result_snoc {A B : Type} (f : A -> result B) (l : list A) (x : A) :
  mapM f (l ++ [x])
  = (ys ← mapM f l; y ← f x; Ok (ys ++ [y])%list).
Proof.
  induction l as [|a l IH]; cbn.
  - by destruct (f x).
  - destruct (f a) as [b|e]; cbn; [|done]. rewrite IH.
    destruct (mapM f l) as [ys|e]; cbn; [|done]. by destruct (f x).
Qed.

Lemma mapM_result_snoc_app {A B : Type} (f : A -> result B) (l l' : list A) :
  mapM f (l ++ l') = (ys ← mapM f l; ys' ← mapM f l'; Ok (ys ++ ys')%list).
Proof.
  induction l as [|a l IH]; cbn.
  - by destruct (mapM f l').
  - destruct (f a) as [b|e]; cbn; [|done]. rewrite IH.
    destruct (mapM f l) as [ys|e]; cbn; [|done]. by destruct (mapM f l').
Qed.

Lemma mapM_result_length {A B : Type} (f : A -> result B) (l : list A) (ys : list B) :
  mapM f l = Ok ys -> length ys = length l.
Proof.
  revert ys. induction l as [|a l IH]; intros ys; cbn.
  - by intros [= <-].
  - destruct (f a) as [b|e]; cbn; [|done].
    destruct (mapM f l) as [ys'|e]; cbn; [|done].
    intros [= <-]. cbn. f_equal. by apply IH.
Qed.

Lemma kept_records_snoc (filterByChromosome : bool) (skipcallers : list string)
    (seen : list merged_record) (rec : merged_record) :
  kept_records filterByChromosome skipcallers (seen ++ [rec])
  = (kept_records filterByChromosome skipcallers seen
     ++ match called_names filterByChromosome skipcallers rec with
        | [] => []
        | _ :: _ => [rec]
        end)%list.
Proof.
  unfold kept_records. rewrite filter_app. f_equal.
  destruct (called_names filterByChromosome skipcallers rec) eqn:Hc.
  - rewrite filter_cons_False; [done|]. rewrite Hc. by intros [].
  - rewrite filter_cons_True; [done|]. by rewrite Hc.
Qed.

(** One round of the reading loop: it fails only for the reason
    [record_error] gives, and otherwise accounts for the record. *)
Lemma read_record_step (filterByChromosome : bool) (skipcallers : list string)
    (seen : list merged_record) (rec : merged_record) (st : read_state) :
  read_inv filterByChromosome skipcallers seen st ->
  match read_record filterByChromosome skipcallers rec st with
  | Ok st' =>
      read_inv filterByChromosome skipcallers (seen ++ [rec]) st'
      /\ record_error filterByChromosome skipcallers rec = None
  | Raise e => record_error filterByChromosome skipcallers rec = Some e
  end.
Proof.
  intros (Hidx & Hinv & Hcalls).
  unfold read_inv, call_lists. rewrite kept_records_snoc, map_app, length_app.
  fold (call_lists filterByChromosome skipcallers seen).
  rewrite mapM_result_snoc_app, Hcalls. cbn [mbind result_bind].
  unfold read_record, record_error.
  destruct (filterByChromosome && negb (mapped_to_chromosome (mr_chrom rec))) eqn:Hb.
  { assert (Hn : called_names filterByChromosome skipcallers rec = []).
    { unfold called_names. by rewrite Hb. }
    rewrite Hn. cbn [map length mapM]. rewrite app_nil_r, Nat.add_0_r.
    cbn [mbind result_bind mret result_ret]. by rewrite app_nil_r. }
  destruct (mr_Callers rec) as [all|] eqn:Hall; [|done].
  cbn [mbind result_bind].
  assert (Hn : called_names filterByChromosome skipcallers rec
               = first_occurrences [] (filter (fun c => c ∉ skipcallers) all)).
  { unfold called_names. by rewrite Hb, Hall. }
  rewrite Hidx.
  destruct (callers_loop_spec skipcallers (call_lists filterByChromosome skipcallers seen)
              (filter (fun c => c ∉ skipcallers) all) [] 0 (rs_index st))
    as (ix' & -> & Hinv').
  { apply Forall_forall. by intros c [? _]%list_elem_of_filter. }
  { by apply index_for_snoc_nil. }
  cbn [mbind result_bind app Nat.add]. rewrite <- Hn in *. rewrite Nat.eqb_refl.
  cbn [negb].
  destruct (called_names filterByChromosome skipcallers rec) as [|c called] eqn:Hcalled.
  - cbn [length Nat.ltb Nat.leb map mapM]. rewrite app_nil_r, Nat.add_0_r.
    cbn [mbind result_bind mret result_ret rs_callIdx rs_index rs_calls].
    rewrite app_nil_r. split; [|done]. split; [done|]. split; [|done].
    by apply index_for_snoc_nil.
  - cbn [length Nat.ltb Nat.leb map mapM]. unfold summary_of. rewrite Hcalled.
    destruct (mr_REF rec) as [REF|e]; cbn [mbind result_bind]; [|done].
    destruct (first_alt (mr_alts rec)) as [alt|e]; cbn [mbind result_bind]; [|done].
    cbn [mret result_ret rs_callIdx rs_index rs_calls length].
    split; [|done]. split; [lia|]. split; done.
Qed.

Lemma read_records_spec (filterByChromosome : bool) (skipcallers : list string)
    (seen records : list merged_record) (st : read_state) :
  read_inv filterByChromosome skipcallers seen st ->
  match read_records filterByChromosome skipcallers records st with
  | Ok st' =>
      read_inv filterByChromosome skipcallers (seen ++ records) st'
      /\ Forall (fun rec => record_error filterByChromosome skipcallers rec = None) records
  | Raise e =>
      exists before rec after,
        records = (before ++ rec :: after)%list
        /\ Forall (fun r => record_error filterByChromosome skipcallers r = None) before
        /\ record_error filterByChromosome skipcallers rec = Some e
  end.
Proof.
  revert seen st. induction records as [|rec records IH]; intros seen st Hinv;
    cbn [read_records].
  - rewrite app_nil_r. by split.
  - pose proof (read_record_step filterByChromosome skipcallers seen rec st Hinv) as Hstep.
    destruct (read_record filterByChromosome skipcallers rec st) as [st1|e];
      cbn [mbind result_bind].
    + destruct Hstep as [Hinv1 Hok]. specialize (IH (seen ++ [rec])%list st1 Hinv1).
      destruct (read_records filterByChromosome skipcallers records st1) as [st'|e].
      * destruct IH as [Hinv' Hall]. rewrite <- app_assoc in Hinv'. split; [done|].
        by constructor.
      * destruct IH as (before & rec' & after & -> & Hbefore & Herr).
        exists (rec :: before), rec', after. split; [done|]. split; [by constructor|done].
    + exists [], rec, records. split; [done|]. split; [constructor|done].
Qed.

Lemma read_inv_init (filterByChromosome : bool) (skipcallers : list string) :
  read_inv filterByChromosome skipcallers [] (mkRead 0 (mkIndex 0 [] ∅) []).
Proof.
  unfold read_inv, index_for, index_core, index_named, index_order. cbn.
  repeat split; try done.
  - intros i Hi. lia.
  - by intros c called ?%elem_of_nil.
Qed.

(** What a successful reading of [records] returns. *)
Lemma readMergedCalls_Ok (VariantFile : string -> merged_source) (infile : string)
    (filterByChromosome readINFO : bool) (skipcallers : option (list string))
    (dict : gmap string nat) (sets : list (list nat)) (calls : list call_summary) :
  readMergedCalls VariantFile infile filterByChromosome readINFO skipcallers
  = Ok (dict, sets, calls) ->
  exists records st,
    VariantFile infile = MReadable records None
    /\ read_inv filterByChromosome (default [] skipcallers) records st
    /\ Forall (fun rec => record_error filterByChromosome (default [] skipcallers) rec = None)
         records
    /\ dict = callerIdxDict (rs_index st) /\ sets = callsets (rs_index st)
    /\ calls = rs_calls st.
Proof.
  unfold readMergedCalls. destruct (VariantFile infile) as [e|records failure]; [done|].
  pose proof (read_records_spec filterByChromosome (default [] skipcallers) [] records _
                (read_inv_init _ _)) as Hspec.
  destruct (read_records _ _ records _) as [st|e]; cbn [mbind result_bind]; [|done].
  destruct failure; [done|]. intros [= <- <- <-]. destruct Hspec as [Hinv Hall].
  exists records, st. done.
Qed.

(** X22: the bookkeeping of [readMergedCalls] never fails: neither the
    update of a call set nor the assertion on the number of callers can
    raise.  When the file is read to its end and no record is malformed
    (a record that passes the chromosome filter has the Callers key, a
    record that is a call has a readable REF and an ALT), the function
    returns, with one summary per call in the order of the file. *)
Theorem readMergedCalls_returns (VariantFile : string -> merged_source) (infile : string)
    (filterByChromosome readINFO : bool) (skipcallers : option (list string))
    (records : list merged_record) :
  VariantFile infile = MReadable records None ->
  (forall rec, rec ∈ records ->
     record_error filterByChromosome (default [] skipcallers) rec = None) ->
  exists dict sets calls,
    readMergedCalls VariantFile infile filterByChromosome readINFO skipcallers
    = Ok (dict, sets, calls)
    /\ mapM (summary_of filterByChromosome (default [] skipcallers))
         (kept_records filterByChromosome (default [] skipcallers) records) = Ok calls
    /\ length calls
       = length (kept_records filterByChromosome (default [] skipcallers) records).
Proof.
  intros Hfile Hwf. unfold readMergedCalls. rewrite Hfile.
  pose proof (read_records_spec filterByChromosome (default [] skipcallers) [] records _
                (read_inv_init _ _)) as Hspec.
  destruct (read_records _ _ records _) as [st|e]; cbn [mbind result_bind].
  - destruct Hspec as [(_ & _ & Hcalls) _]. cbn [app] in *.
    eexists _, _, _. split; [reflexivity|]. split; [done|].
    by eapply mapM_result_length.
  - destruct Hspec as (before & rec & after & -> & _ & Herr).
    rewrite Hwf in Herr; [done|]. apply elem_of_app. right. by left.
Qed.

Example readMergedCalls_sample :
  readMergedCalls merged_files "merged.vcf" true false None
  = Ok (<["delly" := 0%nat]> (<["lumpy" := 1%nat]> (<["manta" := 2%nat]> ∅)),
        [[0%nat]; [0%nat; 1%nat]; [1%nat]],
        [(2%nat, "1", 100, "A", "T", "delly,lumpy");
         (2%nat, "2", 300, "N", "<DEL>", "lumpy,manta")]).
Proof. vm_compute. reflexivity. Qed.

Lemma readMergedCalls_returns_witness :
  exists dict sets calls,
    readMergedCalls merged_files "merged.vcf" true false (Some ["lumpy"])
    = Ok (dict, sets, calls)
    /\ length calls = 2%nat.
Proof.
  destruct (readMergedCalls_returns merged_files "merged.vcf" true false (Some ["lumpy"])
              [call_a; call_b; call_c] eq_refl) as (dict & sets & calls & Hres & _ & Hlen).
  - intros rec Hrec. rewrite !elem_of_cons, elem_of_nil in Hrec.
    destruct Hrec as [->|[->|[->|[]]]]; reflexivity.
  - exists dict, sets, calls. split; [exact Hres|]. rewrite Hlen. reflexivity.
Defined.

(** X23: when [readMergedCalls] raises, the exception is the one raised
    by opening the file, or the error of the first malformed record, or
    the exception that ended the reading after records that were all
    well formed. *)
Theorem readMergedCalls_raises (VariantFile : string -> merged_source) (infile : string)
    (filterByChromosome readINFO : bool) (skipcallers : option (list string)) (e : exn) :
  readMergedCalls VariantFile infile filterByChromosome readINFO skipcallers = Raise e ->
  let ok rec := record_error filterByChromosome (default [] skipcallers) rec = None in
  VariantFile infile = MUnreadable e
  \/ exists records failure,
       VariantFile infile = MReadable records failure
       /\ ((exists before rec after,
              records = (before ++ rec :: after)%list /\ Forall ok before
              /\ record_error filterByChromosome (default [] skipcallers) rec = Some e)
           \/ (Forall ok records /\ failure = Some e)).
Proof.
  unfold readMergedCalls. destruct (VariantFile infile) as [e'|records failure].
  - intros [= ->]. by left.
  - intros H. right. exists records, failure. split; [done|].
    pose proof (read_records_spec filterByChromosome (default [] skipcallers) [] records _
                  (read_inv_init _ _)) as Hspec.
    destruct (read_records _ _ records _) as [st|e'']; cbn [mbind result_bind] in H.
    + destruct failure as [e'|]; [|done]. injection H as ->. right.
      by destruct Hspec as [_ Hall].
    + injection H as ->. by left.
Qed.

Lemma readMergedCalls_raises_witness :
  merged_files "missing.vcf" = MUnreadable OSError
  \/ exists records failure,
       merged_files "missing.vcf" = MReadable records failure
       /\ ((exists before rec after,
              records = (before ++ rec :: after)%list
              /\ Forall (fun rec => record_error true [] rec = None) before
              /\ record_error true [] rec = Some OSError)
           \/ (Forall (fun rec => record_error true [] rec = None) records
               /\ failure = Some OSError)).
Proof.
  apply (readMergedCalls_raises merged_files "missing.vcf" true false None OSError).
  reflexivity.
Defined.

(** X24: the call set of a caller lists, in increasing order and without
    repeats, exactly the indices of the calls that name the caller; it is
    never empty and its entries are positions of [callIdxToCall]. *)
Theorem readMergedCalls_callsets (VariantFile : string -> merged_source) (infile : string)
    (filterByChromosome readINFO : bool) (skipcallers : option (list string))
    (records : list merged_record) (failure : option exn)
    (dict : gmap string nat) (sets : list (list nat)) (calls : list call_summary)
    (c : string) (i : nat) :
  VariantFile infile = MReadable records failure ->
  readMergedCalls VariantFile infile filterByChromosome readINFO skipcallers
  = Ok (dict, sets, calls) ->
  dict !! c = Some i ->
  let L := call_lists filterByChromosome (default [] skipcallers) records in
  exists cs,
    sets !! i = Some cs
    /\ cs <> []
    /\ StronglySorted lt cs
    /\ (forall j, j ∈ cs <-> exists called, L !! j = Some called /\ c ∈ called)
    /\ (forall j, j ∈ cs -> (j < length calls)%nat).
Proof.
  intros Hfile Hres Hc L.
  apply readMergedCalls_Ok in Hres
    as (records' & st & Hfile' & (Hidx & (Hcore & Hnamed & Horder) & Hcalls) & _ & -> & -> & ->).
  assert (records' = records) as -> by congruence.
  destruct Hcore as (_ & Hsets & _). fold L in Hsets, Hnamed, Hidx.
  assert (Hmem : forall j, j ∈ indices_from 0 c L <->
                   exists called, L !! j = Some called /\ c ∈ called).
  { intros j. rewrite indices_from_elem, Nat.sub_0_r. split; [by intros [_ ?]|].
    intros H. split; [lia|done]. }
  exists (indices_from 0 c L). split; [by apply Hsets|]. split; [|split; [|split]].
  - destruct (Hnamed c i Hc) as (called & Hcalled & Hcc).
    apply list_elem_of_lookup in Hcalled as [j Hj].
    intros Hnil. assert (Hjin : j ∈ indices_from 0 c L) by (apply Hmem; eauto).
    rewrite Hnil in Hjin. by apply elem_of_nil in Hjin.
  - apply indices_from_sorted.
  - exact Hmem.
  - intros j (called & Hj & _)%Hmem. apply lookup_lt_Some in Hj.
    rewrite (mapM_result_length _ _ _ Hcalls).
    unfold L, call_lists in Hj. by rewrite length_map in Hj.
Qed.

Lemma readMergedCalls_callsets_witness :
  exists cs,
    [[0%nat]; [0%nat; 1%nat]; [1%nat]] !! 1%nat = Some cs
    /\ cs <> [] /\ StronglySorted lt cs.
Proof.
  destruct (readMergedCalls_callsets merged_files "merged.vcf" true false None
              [call_a; call_b; call_c] None _ _ _ "lumpy" 1 eq_refl
              readMergedCalls_sample) as (cs & Hcs & Hne & Hsorted & _).
  - vm_compute. reflexivity.
  - exists cs. split; [exact Hcs|]. split; [exact Hne|exact Hsorted].
Defined.

(** X25: the callers are numbered from 0 without gap or repeat, one
    call set each; a caller has a number exactly when some call names it,
    so a caller given in [skipcallers] has none. *)
Theorem readMergedCalls_index (VariantFile : string -> merged_source) (infile : string)
    (filterByChromosome readINFO : bool) (skipcallers : option (list string))
    (records : list merged_record) (failure : option exn)
    (dict : gmap string nat) (sets : list (list nat)) (calls : list call_summary) :
  VariantFile infile = MReadable records failure ->
  readMergedCalls VariantFile infile filterByChromosome readINFO skipcallers
  = Ok (dict, sets, calls) ->
  let L := call_lists filterByChromosome (default [] skipcallers) records in
  (forall c i, dict !! c = Some i -> (i < length sets)%nat)
  /\ (forall c c' i, dict !! c = Some i -> dict !! c' = Some i -> c = c')
  /\ (forall i, (i < length sets)%nat -> exists c, dict !! c = Some i)
  /\ (forall c, is_Some (dict !! c) <-> exists called, called ∈ L /\ c ∈ called)
  /\ (forall c, c ∈ default [] skipcallers -> dict !! c = None).
Proof.
  intros Hfile Hres L.
  apply readMergedCalls_Ok in Hres
    as (records' & st & Hfile' & (Hidx & (Hcore & Hnamed & Horder) & Hcalls) & _ & -> & -> & ->).
  assert (records' = records) as -> by congruence.
  destruct Hcore as (Hlen & Hsets & Hinj & Hsurj & Hreg). fold L in Hsets, Hnamed, Hreg.
  assert (Hdom : forall c, is_Some (callerIdxDict (rs_index st) !! c) <->
                   exists called, called ∈ L /\ c ∈ called).
  { intros c. split.
    - intros [i Hi]. by eapply Hnamed.
    - intros (called & Hcalled & Hc). by eapply Hreg. }
  split; [|split; [|split; [|split]]].
  - intros c i Hc. by eapply lookup_lt_Some, Hsets.
  - exact Hinj.
  - intros i Hi. apply Hsurj. by rewrite <- Hlen.
  - exact Hdom.
  - intros c Hskip. apply eq_None_not_Some. intros (called & Hcalled & Hc)%Hdom.
    unfold L, call_lists in Hcalled.
    apply list_elem_of_fmap in Hcalled as (rec & -> & _).
    by destruct (proj2 (called_names_spec _ _ rec) c Hc).
Qed.

Lemma readMergedCalls_index_witness :
  exists dict sets calls,
    readMergedCalls merged_files "merged.vcf" true false (Some ["lumpy"])
    = Ok (dict, sets, calls)
    /\ dict !! "lumpy" = None
    /\ (forall i, (i < length sets)%nat -> exists c, dict !! c = Some i).
Proof.
  destruct (readMergedCalls merged_files "merged.vcf" true false (Some ["lumpy"]))
    as [[[dict sets] calls]|e] eqn:Hres; [|vm_compute in Hres; discriminate].
  destruct (readMergedCalls_index merged_files "merged.vcf" true false (Some ["lumpy"])
              [call_a; call_b; call_c] None dict sets calls eq_refl Hres)
    as (_ & _ & Hsurj & _ & Hskip).
  exists dict, sets, calls. split; [reflexivity|]. split; [|exact Hsurj].
  apply Hskip. apply list_elem_of_here.
Defined.

(** X26: callers are numbered in the order in which the calls of the
    file first name them: the number of a caller is its rank among the
    callers seen so far when it first appears, and there are as many call
    sets as callers. *)
Theorem readMergedCalls_numbering (VariantFile : string -> merged_source)
    (infile : string) (filterByChromosome readINFO : bool)
    (skipcallers : option (list string))
    (records : list merged_record) (failure : option exn)
    (dict : gmap string nat) (sets : list (list nat)) (calls : list call_summary) :
  VariantFile infile = MReadable records failure ->
  readMergedCalls VariantFile infile filterByChromosome readINFO skipcallers
  = Ok (dict, sets, calls) ->
  let order :=
    caller_order (call_lists filterByChromosome (default [] skipcallers) records) in
  length sets = length order
  /\ NoDup order
  /\ forall c i, dict !! c = Some i <-> order !! i = Some c.
Proof.
  intros Hfile Hres order.
  apply readMergedCalls_Ok in Hres
    as (records' & st & Hfile' & (Hidx & (Hcore & Hnamed & Horder) & Hcalls) & _ & -> & -> & ->).
  assert (records' = records) as -> by congruence.
  destruct Hcore as (Hlen & _). destruct Horder as [Hord_len Hord].
  split; [by rewrite Hlen, <- Hord_len|]. split; [apply first_occurrences_NoDup|].
  exact Hord.
Qed.

Lemma readMergedCalls_numbering_witness :
  let order := ["delly"; "lumpy"; "manta"] in
  length [[0%nat]; [0%nat; 1%nat]; [1%nat]] = length order /\ NoDup order.
Proof.
  intros order.
  destruct (readMergedCalls_numbering merged_files "merged.vcf" true false None
              [call_a; call_b; call_c] None _ _ _ eq_refl readMergedCalls_sample)
    as (Hlen & Hnd & _).
  split; [exact Hlen | exact Hnd].
Defined.

Lemma first_occurrences_nil (l : list string) : first_occurrences [] l = [] -> l = [].
Proof.
  destruct l as [|x l]; [done|]. cbn [first_occurrences].
  by rewrite bool_decide_eq_false_2 by apply not_elem_of_nil.
Qed.

(** A record attributed to no caller leaves the state as it is. *)
Lemma read_record_ignored (filterByChromosome : bool) (skipcallers : list string)
    (rec : merged_record) (st st' : read_state) :
  called_names filterByChromosome skipcallers rec = [] ->
  read_record filterByChromosome skipcallers rec st = Ok st' -> st' = st.
Proof.
  unfold called_names, read_record.
  destruct (filterByChromosome && negb (mapped_to_chromosome (mr_chrom rec)));
    [by intros _ [= <-]|].
  destruct (mr_Callers rec) as [all|]; [|done]. cbn [mbind result_bind].
  intros Hn. apply first_occurrences_nil in Hn. cbn in Hn. rewrite Hn.
  cbn. intros [= <-]. by destruct st.
Qed.

Lemma read_records_kept (filterByChromosome : bool) (skipcallers : list string)
    (records : list merged_record) (st st' : read_state) :
  read_records filterByChromosome skipcallers records st = Ok st' ->
  read_records filterByChromosome skipcallers
    (kept_records filterByChromosome skipcallers records) st = Ok st'.
Proof.
  revert st. induction records as [|rec records IH]; intros st; [done|].
  cbn [read_records]. intros H. apply bind_Ok in H as (st1 & Hstep & H).
  unfold kept_records.
  destruct (decide (called_names filterByChromosome skipcallers rec = [])) as [Hn|Hn].
  - rewrite filter_cons_False by (by intros []).
    rewrite (read_record_ignored _ _ _ _ _ Hn Hstep) in H. by apply IH.
  - rewrite filter_cons_True by done. cbn [read_records]. rewrite Hstep.
    cbn [mbind result_bind]. by apply IH.
Qed.

(** X27: a record on a contig that is filtered out, and a record all of
    whose callers are skipped, leave no trace: the result is the one
    obtained from the file without these records. *)
Theorem readMergedCalls_ignored_records (VariantFile VariantFile' : string -> merged_source)
    (infile infile' : string) (filterByChromosome readINFO : bool)
    (skipcallers : option (list string)) (records : list merged_record)
    (res : gmap string nat * list (list nat) * list call_summary) :
  VariantFile infile = MReadable records None ->
  VariantFile' infile'
  = MReadable (kept_records filterByChromosome (default [] skipcallers) records) None ->
  readMergedCalls VariantFile infile filterByChromosome readINFO skipcallers = Ok res ->
  readMergedCalls VariantFile' infile' filterByChromosome readINFO skipcallers = Ok res.
Proof.
  unfold readMergedCalls. intros -> ->. intros H.
  apply bind_Ok in H as (st & Hst & H).
  by rewrite (read_records_kept _ _ _ _ _ Hst).
Qed.

Lemma readMergedCalls_ignored_records_witness :
  readMergedCalls (fun _ => MReadable [call_a; call_c] None) "kept.vcf" true false None
  = readMergedCalls merged_files "merged.vcf" true false None.
Proof.
  rewrite readMergedCalls_sample.
  apply (readMergedCalls_ignored_records merged_files
           (fun _ => MReadable [call_a; call_c] None) "merged.vcf" "kept.vcf"
           true false None [call_a; call_b; call_c]).
  - reflexivity.
  - reflexivity.
  - exact readMergedCalls_sample.
Defined.



